(** * Guitar Hero: the state reducer, the key-press handler and the RNG

    A shallow embedding of [src/state.ts], of the key-press and random-number
    parts of [src/util.ts], of the types of [types.ts] and of the event loop
    of [src/main.ts].

    Conventions of the model.
    - A JavaScript [number] that only ever holds an integer ([yPos], [score],
      [time], [pitch], [velocity]) is a [Z]; a [number] that holds a fraction
      ([start], [end]) is an exact rational [Q].  The program adds 1, 5 or 10
      to these integers, which is exact below 2^53, as every value of a
      session is.  The one place where the
      source leaves the exactly representable integers, the product
      [a * seed] of the generator, has its binary64 rounding written out
      ([round53]), and its overflow: a product beyond the largest double is an
      infinity, whose remainder is [NaN].  So the hashes of the generator and
      the scaled random values are a [number]: an integer or a rational, or
      [NaN].  The double the program computes for a fraction is the rounding
      of the rational of the model; rounding is monotone and exact at -1 and
      1, so a bound by these proved for the rational holds for the double.
    - JavaScript objects are compared by reference ([===], [!==]).  Every
      object therefore carries the address it was allocated at, and the
      comparison is the comparison of addresses.
    - Effects (allocation, the captured random sequence, the children of the
      SVG canvas, the notes sent to the sampler) and exceptions are threaded by
      the small monad [JS]. *)

From Stdlib Require Import ZArith QArith Qround Lqa List String Bool Lia Arith.
Import ListNotations.

Local Open Scope Z_scope.

(** ** Numbers *)

(** Round-to-nearest, ties-to-even, of a non-negative integer to the 53-bit
    significand of a binary64 float. *)
Definition round53_pos (z : Z) : Z :=
  if z <? 2 ^ 53 then z
  else
    let e := Z.log2 z - 52 in
    let q := z / 2 ^ e in
    let r := z mod 2 ^ e in
    let half := 2 ^ (e - 1) in
    if r <? half then q * 2 ^ e
    else if half <? r then (q + 1) * 2 ^ e
    else if Z.even q then q * 2 ^ e
    else (q + 1) * 2 ^ e.

(** The binary64 value of an integer-valued arithmetic result, were the
    exponent unbounded. *)
Definition round53 (z : Z) : Z :=
  if z <? 0 then - round53_pos (- z) else round53_pos z.

(** The rounded result is a finite double when it is below 2^1024 in absolute
    value; otherwise the operation overflows and gives an infinity. *)
Definition isFinite (z : Z) : bool := Z.abs z <? 2 ^ 1024.

(** A [number] that can be [NaN]. *)
Inductive number (A : Type) : Type :=
| Finite (x : A)
| NaN.

Arguments Finite {A} x.
Arguments NaN {A}.

(** ** [util.ts]: random number generation *)

Module RNG.

Definition m : Z := 2147483648.  (* 0x80000000 *)
Definition a : Z := 1103515245.
Definition c : Z := 12345.

(** [(RNG.a * seed + RNG.c) % RNG.m]; [%] takes the sign of the dividend.
    Arithmetic on [NaN] gives [NaN]; so does the remainder of an infinity,
    which is what the sum is when the product or the sum overflows. *)
Definition hash (seed : number Z) : number Z :=
  match seed with
  | NaN => NaN
  | Finite seed =>
      let product := round53 (a * seed) in
      let sum := round53 (product + c) in
      if isFinite product && isFinite sum then Finite (Z.rem sum m) else NaN
  end.

(** [(2 * hash) / (RNG.m - 1) - 1]. *)
Definition scale (hash : number Z) : number Q :=
  match hash with
  | NaN => NaN
  | Finite hash => Finite (inject_Z (2 * hash) / inject_Z (m - 1) - 1)%Q
  end.

End RNG.

(** [interface LazySequence<number>]; its only implementation is [lazyRNG],
    whose [next] closes over [value] alone. *)
Record LazySequence : Type := { value : number Z }.

Definition lazyRNG (seed : number Z) : LazySequence := {| value := seed |}.

Definition next (s : LazySequence) : LazySequence :=
  lazyRNG (RNG.hash (value s)).

(** [createTriggeredRngStream] returns a closure over the mutable variable
    [currentSequence]; the closure is represented by the content of that
    variable, and a call of it by [getRandomValue].  The seed is an
    integer. *)
Definition createTriggeredRngStream (seed : Z) : LazySequence :=
  lazyRNG (Finite seed).

Definition getRandomValue (currentSequence : LazySequence)
  : number Q * LazySequence :=
  let currentSequence := next currentSequence in
  (RNG.scale (value currentSequence), currentSequence).

(** The value returned by call number [n + 1] of the closure. *)
Fixpoint nthCall (n : nat) (currentSequence : LazySequence) : number Q :=
  match n with
  | O => fst (getRandomValue currentSequence)
  | S n' => nthCall n' (snd (getRandomValue currentSequence))
  end.

(** [Math.floor((getRandomValue() + 1) / 2 * state.notes.length)] for the
    random value [v] and a chart of [len] notes. *)
Definition randomIndex (v : Q) (len : nat) : Z :=
  Qfloor ((v + 1) / 2 * inject_Z (Z.of_nat len))%Q.

(** [array[i]] for an integer index: [undefined] ([None]) outside the array. *)
Definition arrayGet {A : Type} (l : list A) (i : Z) : option A :=
  if i <? 0 then None else nth_error l (Z.to_nat i).

(** A random value is in the range the generator is documented to have.  No
    comparison with [NaN] holds. *)
Definition inUnitRange (v : number Q) : Prop :=
  match v with
  | Finite q => (-1 <= q /\ q <= 1)%Q
  | NaN => False
  end.

(** ** [types.ts] *)

(** The address of a JavaScript object. *)
Definition loc : Type := nat.

(** [type Key = "KeyH" | "KeyJ" | "KeyK" | "KeyL"]. *)
Inductive Key : Type := KeyH | KeyJ | KeyK | KeyL.

Record NoteObject : Type := {
  note_addr : loc;
  user_played : bool;
  instrument_name : string;
  velocity : Z;
  pitch : Z;
  start : Q;
  end_ : Q
}.

(** An SVG element.  Of its attributes the program reads only [cx], which is
    written once when the element is created; [r], [style] and [class], and
    [cy], which [render] rewrites, are never read and are not represented. *)
Record SVGElement : Type := {
  node : loc;
  cx : string
}.

Record CircleObj : Type := {
  self : loc;
  note : NoteObject;
  circle : SVGElement;
  yPos : Z
}.

Record State : Type := {
  gameEnd : bool;
  notes : list NoteObject;
  score : Z;
  time : Z;
  circles : list CircleObj;
  exits : list CircleObj
}.

(** ** Effects *)

Inductive Exception : Type :=
| TypeError       (* a property of [undefined] was read, or a value that is
                     no function was called *)
| NotFoundError.  (* [removeChild] of a node that is not a child *)

Inductive result (A : Type) : Type :=
| Ok (a : A)
| Throw (e : Exception).

Arguments Ok {A} a.
Arguments Throw {A} e.

Record Env : Type := {
  svg : list SVGElement;           (* the note circles attached to the canvas *)
  currentSequence : LazySequence;  (* the variable captured by the generator *)
  heap : loc;                      (* the next unused address *)
  audio : list NoteObject          (* the notes triggered on the sampler *)
}.

(** A computation changes the environment and returns or throws; what it did
    before it threw stays done. *)
Definition JS (A : Type) : Type := Env -> result A * Env.

Definition ret {A : Type} (a : A) : JS A := fun e => (Ok a, e).

Definition throw {A : Type} (x : Exception) : JS A := fun e => (Throw x, e).

Definition bind {A B : Type} (c : JS A) (k : A -> JS B) : JS B :=
  fun e =>
    match c e with
    | (Ok a, e') => k a e'
    | (Throw x, e') => (Throw x, e')
    end.

Notation "x <- c ;; k" := (bind c (fun x => k))
  (at level 61, c at next level, right associativity).
Notation "c ;; k" := (bind c (fun _ => k))
  (at level 61, right associativity).

(** [new] or an object literal: the address of the fresh object. *)
Definition alloc : JS loc :=
  fun e =>
    (Ok (heap e),
     {| svg := svg e; currentSequence := currentSequence e;
        heap := S (heap e); audio := audio e |}).

(** A call of the closure returned by [createTriggeredRngStream]. *)
Definition callRandom : JS (number Q) :=
  fun e =>
    let (v, s) := getRandomValue (currentSequence e) in
    (Ok v,
     {| svg := svg e; currentSequence := s; heap := heap e; audio := audio e |}).

Definition sameNode (x y : SVGElement) : bool := Nat.eqb (node x) (node y).

(** Whether [child] is among the children, and the children without it. *)
Definition isChild (child : SVGElement) (children : list SVGElement) : bool :=
  existsb (sameNode child) children.

Definition without (child : SVGElement) (children : list SVGElement)
  : list SVGElement :=
  filter (fun x => negb (sameNode child x)) children.

(** [svg.removeChild(child)]. *)
Definition removeChild (child : SVGElement) : JS unit :=
  fun e =>
    if isChild child (svg e) then
      (Ok tt,
       {| svg := without child (svg e);
          currentSequence := currentSequence e; heap := heap e;
          audio := audio e |})
    else (Throw NotFoundError, e).

(** [svg.appendChild(child)]: a node that is already a child moves to the
    end. *)
Definition appendChild (child : SVGElement) : JS unit :=
  fun e =>
    (Ok tt,
     {| svg := without child (svg e) ++ [child];
        currentSequence := currentSequence e; heap := heap e;
        audio := audio e |}).

(** [instrument.triggerAttackRelease(...)] of a loaded sampler, for the pitch
    and velocity of [n].  The sampler is code of Tone.js; its call is an
    output of the program and returns. *)
Definition triggerAttackRelease (n : NoteObject) : JS unit :=
  fun e =>
    (Ok tt,
     {| svg := svg e; currentSequence := currentSequence e; heap := heap e;
        audio := audio e ++ [n] |}).

(** ** [util.ts]: circles, sound and key presses *)

(** The sample dictionary: a plain object whose own properties are the
    loaded instruments, by name, each holding a sampler. *)
Definition Samples : Type := list string.

(** Whether [name] is an own property of the dictionary: a loaded
    instrument. *)
Definition hasInstrument (samples : Samples) (name : string) : bool :=
  existsb (String.eqb name) samples.

(** The properties every plain object inherits from [Object.prototype].  Each
    holds a function, or the prototype itself: a value that is truthy and has
    no [triggerAttackRelease]. *)
Definition inheritedNames : list string :=
  ["constructor"; "hasOwnProperty"; "isPrototypeOf"; "propertyIsEnumerable";
   "toLocaleString"; "toString"; "valueOf"; "__proto__"; "__defineGetter__";
   "__defineSetter__"; "__lookupGetter__"; "__lookupSetter__"]%string.

Definition isInherited (name : string) : bool :=
  existsb (String.eqb name) inheritedNames.

(** [playSound(note, samples)].  The note comes from an array access and may
    be [undefined]; reading [note.instrument_name] then throws.  The lookup
    [samples[note.instrument_name]] finds an own property, else an inherited
    one, else [undefined]; an inherited member passes the test
    [if (instrument)], and calling its [triggerAttackRelease], which is
    [undefined], throws. *)
Definition playSound (note : option NoteObject) (samples : Samples) : JS unit :=
  match note with
  | None => throw TypeError
  | Some n =>
      if hasInstrument samples (instrument_name n)
      then triggerAttackRelease n
      else if isInherited (instrument_name n)
      then throw TypeError
      else ret tt
  end.

(** The notes [playSound] returns on: the instrument is loaded, or its name
    is not one every object inherits. *)
Definition instrumentOk (samples : Samples) (n : NoteObject) : bool :=
  hasInstrument samples (instrument_name n)
  || negb (isInherited (instrument_name n)).

Definition position : list string := ["20%"; "40%"; "60%"; "80%"]%string.

(** [position[note.pitch % 4]]; an [undefined] entry becomes the attribute
    text "undefined". *)
Definition determineCxPosition (note : NoteObject) : string :=
  let colour := Z.rem (pitch note) 4 in
  match arrayGet position colour with
  | Some p => p
  | None => "undefined"%string
  end.

(** [createSvgElement(namespace, 'circle', {..., cx, ...})]. *)
Definition createSvgElement (cx : string) : JS SVGElement :=
  a <- alloc ;;
  ret {| node := a; cx := cx |}.

(** [CreateCircle.createCircleObj]. *)
Definition createCircleObj (note : NoteObject) : JS CircleObj :=
  circle <- createSvgElement (determineCxPosition note) ;;
  a <- alloc ;;
  ret {| self := a; note := note; circle := circle; yPos := 0 |}.

Definition keyToPositionMapping (keyCode : Key) : string :=
  match keyCode with
  | KeyH => "20%"
  | KeyJ => "40%"
  | KeyK => "60%"
  | KeyL => "80%"
  end%string.

(** [state.notes[randomIndex]] for the random value [v], with [randomIndex]
    the [Math.floor] above.  For [NaN] the index is [NaN], which is the index
    of no element. *)
Definition randomNoteFor (v : number Q) (notes : list NoteObject)
  : option NoteObject :=
  match v with
  | Finite v => arrayGet notes (randomIndex v (List.length notes))
  | NaN => None
  end.

(** The predicate of [state.circles.find] in [handleKeyPress]. *)
Definition inHitRange (targetCx : string) (c : CircleObj) : bool :=
  let circleCx := cx (circle c) in
  String.eqb circleCx targetCx && (320 <=? yPos c) && (yPos c <=? 350).

(** [handleKeyPress(keyCode, state, svg, samples, getRandomValue)]; the canvas
    and the generator are in the environment. *)
Definition handleKeyPress (keyCode : Key) (state : State) (samples : Samples)
  : JS State :=
  let targetCx := keyToPositionMapping keyCode in
  match find (inHitRange targetCx) (circles state) with
  | Some hitCircle =>
      playSound (Some (note hitCircle)) samples ;;
      removeChild (circle hitCircle) ;;
      let updatedCircles :=
        filter (fun c => negb (Nat.eqb (self c) (self hitCircle)))
               (circles state) in
      let newScore := score state + 10 in
      ret {| gameEnd := gameEnd state; notes := notes state;
             score := newScore; time := time state;
             circles := updatedCircles; exits := exits state |}
  | None =>
      v <- callRandom ;;
      let randomNote := randomNoteFor v (notes state) in
      playSound randomNote samples ;;
      let newScore := Z.max 0 (score state - 1) in
      ret {| gameEnd := gameEnd state; notes := notes state;
             score := newScore; time := time state;
             circles := circles state; exits := exits state |}
  end.

(** ** [state.ts] *)

Definition initialState : State :=
  {| gameEnd := false; notes := []; score := 0; time := 0;
     circles := []; exits := [] |}.

(** [array.map(x => ({...}))]: one fresh object per element, in order. *)
Fixpoint mapAlloc {A B : Type} (f : loc -> A -> B) (l : list A) : JS (list B) :=
  match l with
  | [] => ret []
  | x :: l' =>
      a <- alloc ;;
      rest <- mapAlloc f l' ;;
      ret (f a x :: rest)
  end.

Module Tick.

(** [{...circle, yPos: circle.yPos + 5}], allocated at [a]. *)
Definition moved (a : loc) (c : CircleObj) : CircleObj :=
  {| self := a; note := note c; circle := circle c; yPos := yPos c + 5 |}.

Definition apply (s : State) : JS State :=
  mapped <- mapAlloc moved (circles s) ;;
  let updatedCircles := filter (fun c => yPos c <=? 350) mapped in
  let newExits := filter (fun c => yPos c >? 350) (circles s) in
  ret {| gameEnd := gameEnd s; notes := notes s; score := score s;
         time := time s + 1;
         circles := updatedCircles;
         exits := exits s ++ newExits |}.

End Tick.

Module RemoveCircle.

Definition apply (this_note : NoteObject) (s : State) : State :=
  {| gameEnd := gameEnd s; notes := notes s; score := score s;
     time := time s;
     circles :=
       filter (fun c => negb (Nat.eqb (note_addr (note c)) (note_addr this_note)))
              (circles s);
     exits := exits s |}.

End RemoveCircle.

Module UpdateCircleState.

Definition apply (this_circle : CircleObj) (state : State) : State :=
  {| gameEnd := gameEnd state; notes := notes state; score := score state;
     time := time state;
     circles := circles state ++ [this_circle];
     exits := exits state |}.

End UpdateCircleState.

Module GameEnd.

Definition apply (s : State) : State :=
  {| gameEnd := true; notes := notes s; score := score s; time := time s;
     circles := circles s; exits := exits s |}.

End GameEnd.

(** The classes that implement [interface Action], with their constructor
    arguments. *)
Inductive Action : Type :=
| NewTick
| NewRemoveCircle (note : NoteObject)
| NewUpdateCircleState (circle : CircleObj)
| NewGameEnd.

(** [action.apply(s)], by the class of [action]. *)
Definition Action_apply (action : Action) (s : State) : JS State :=
  match action with
  | NewTick => Tick.apply s
  | NewRemoveCircle note => ret (RemoveCircle.apply note s)
  | NewUpdateCircleState circle => ret (UpdateCircleState.apply circle s)
  | NewGameEnd => ret (GameEnd.apply s)
  end.

Definition reduceState (s : State) (action : Action) : JS State :=
  Action_apply action s.

(** ** [main.ts]: the event loop *)

(** What the merged stream [source$] emits: a tick of [tick$], a chart note
    whose start time has come ([createUserPlayNote$] or
    [createBackGroundNotes$], by its [user_played]), a press of one of the
    four keys ([keyPress$]). *)
Inductive Event : Type :=
| TickDue
| NoteDue (note : NoteObject)
| KeyPress (keyCode : Key).

(** The state function an emission is mapped to, applied to the accumulated
    state by [scan]. *)
Definition dispatch (samples : Samples) (ev : Event) (state : State) : JS State :=
  match ev with
  | TickDue => Tick.apply state
  | NoteDue note =>
      if user_played note then
        circleObj <- createCircleObj note ;;
        ret (UpdateCircleState.apply circleObj state)
      else
        playSound (Some note) samples ;;
        ret state
  | KeyPress keyCode => handleKeyPress keyCode state samples
  end.

(** [render]: every circle of the state is appended to the canvas. *)
Fixpoint render (cs : list CircleObj) : JS unit :=
  match cs with
  | [] => ret tt
  | c :: cs' => appendChild (circle c) ;; render cs'
  end.

(** The subscription: the states emitted by [scan], each rendered, until an
    accumulator throws (the stream errors and stops) or a state with [gameEnd]
    is seen (the subscription is torn down).  Returns the emitted states and
    the last state with the environment left behind. *)
Fixpoint mainLoop (samples : Samples) (evs : list Event) (state : State) (e : Env)
  : list State * (State * Env) :=
  match evs with
  | [] => ([], (state, e))
  | ev :: evs' =>
      match dispatch samples ev state e with
      | (Throw _, e') => ([], (state, e'))
      | (Ok newState, e') =>
          let e'' := snd (render (circles newState) e') in
          if gameEnd newState then ([newState], (newState, e''))
          else
            let (emitted, final) := mainLoop samples evs' newState e'' in
            (newState :: emitted, final)
      end
  end.

(** The state and the environment [main] starts from: the chart in the
    initial state, an empty canvas, the generator at its seed, and a heap in
    which the chart's notes are the only objects. *)
Definition currentState (notesArray : list NoteObject) : State :=
  {| gameEnd := gameEnd initialState; notes := notesArray;
     score := score initialState; time := time initialState;
     circles := circles initialState; exits := exits initialState |}.

Definition startEnv (notesArray : list NoteObject) (seed : Z) : Env :=
  {| svg := [];
     currentSequence := createTriggeredRngStream seed;
     heap := S (list_max (map note_addr notesArray));
     audio := [] |}.

(** A session with the generator seeded by [seed]; [main] seeds it with 42. *)
Definition session (seed : Z) (notesArray : list NoteObject) (samples : Samples)
  (evs : list Event) : list State * (State * Env) :=
  mainLoop samples evs (currentState notesArray) (startEnv notesArray seed).

Definition main (notesArray : list NoteObject) (samples : Samples)
  (evs : list Event) : list State * (State * Env) :=
  session 42 notesArray samples evs.

(** ** Runs of the event loop, as a relation *)

(** [exec samples state e evs final e_final]: the subscription, started in
    [state] and [e] and fed [evs], stops in [final] and [e_final]. *)
Inductive exec (samples : Samples)
  : State -> Env -> list Event -> State -> Env -> Prop :=
| exec_done : forall state e,
    exec samples state e [] state e
| exec_error : forall state e ev evs x e',
    dispatch samples ev state e = (Throw x, e') ->
    exec samples state e (ev :: evs) state e'
| exec_ended : forall state e ev evs newState e',
    dispatch samples ev state e = (Ok newState, e') ->
    gameEnd newState = true ->
    exec samples state e (ev :: evs)
         newState (snd (render (circles newState) e'))
| exec_emit : forall state e ev evs newState e' final e_final,
    dispatch samples ev state e = (Ok newState, e') ->
    gameEnd newState = false ->
    exec samples newState (snd (render (circles newState) e')) evs
         final e_final ->
    exec samples state e (ev :: evs) final e_final.

(** ** States the reducer and the key handler can reach *)

(** [UpdateCircleState] is only ever built from [createCircleObj], whose
    circles start at the top of the canvas. *)
Definition startsAtTop (action : Action) : bool :=
  match action with
  | NewUpdateCircleState c => yPos c =? 0
  | _ => true
  end.

(** The states reached from the start state by actions of the four classes
    and by key presses, in any environment. *)
Inductive reachable (notesArray : list NoteObject) : State -> Prop :=
| reach_start :
    reachable notesArray (currentState notesArray)
| reach_action : forall s action e s' e',
    reachable notesArray s ->
    startsAtTop action = true ->
    reduceState s action e = (Ok s', e') ->
    reachable notesArray s'
| reach_key : forall s keyCode samples e s' e',
    reachable notesArray s ->
    handleKeyPress keyCode s samples e = (Ok s', e') ->
    reachable notesArray s'.

(** The invariant of the reachable states: every circle of [circles] has its
    [yPos] at most at 350, and [exits] is empty. *)
Definition playable (s : State) : Prop :=
  Forall (fun c => yPos c <= 350) (circles s) /\ exits s = [].

(** ** Inputs of the examples *)

(** The instruments [main.ts] loads into the sample library. *)
Definition loadedSamples : Samples :=
  ["bass-electric"; "violin"; "piano"; "trumpet"; "saxophone"; "trombone";
   "flute"]%string.

(** [{userPlayed: true, instrument: "piano", velocity: 80, pitch: 60,
     start: 0, end: 1}]. *)
Definition pianoNote : NoteObject :=
  {| note_addr := 0%nat; user_played := true; instrument_name := "piano";
     velocity := 80; pitch := 60; start := 0; end_ := 1 |}.

Definition pianoChart : list NoteObject := [pianoNote].

(** The chart of the CSV row [True,constructor,80,60,0,1]: a note of the user
    whose instrument has the name of a property every object inherits. *)
Definition constructorNote : NoteObject :=
  {| note_addr := 0%nat; user_played := true; instrument_name := "constructor";
     velocity := 80; pitch := 60; start := 0; end_ := 1 |}.

Definition constructorChart : list NoteObject := [constructorNote].

(** The last state of a session of [main]. *)
Definition lastState (r : list State * (State * Env)) : State := fst (snd r).

(** The state and environment [main] is in after the piano note was
    activated and 64 ticks have passed, and the circle of the note then. *)
Definition readySession : list State * (State * Env) :=
  main pianoChart loadedSamples (NoteDue pianoNote :: repeat TickDue 64).

Definition readyState : State := fst (snd readySession).

Definition readyEnv : Env := snd (snd readySession).

Definition readyCircle : CircleObj :=
  {| self := 66%nat; note := pianoNote;
     circle := {| node := 1%nat; cx := "20%" |}; yPos := 320 |}.

(** The state [main] is in after the piano note was activated and 70 ticks
    have passed: the circle is at the lower edge of the playable area. *)
Definition edgeState : State :=
  lastState (main pianoChart loadedSamples (NoteDue pianoNote :: repeat TickDue 70)).

(** The circle [createCircleObj] builds for the piano note at the start of a
    session. *)
Definition topCircle : CircleObj :=
  {| self := 2%nat; note := pianoNote;
     circle := {| node := 1%nat; cx := "20%" |}; yPos := 0 |}.

(** A short session: the piano note comes due, one tick passes, the key of
    another lane is pressed. *)
Definition shortSession : list Event :=
  [NoteDue pianoNote; TickDue; KeyPress KeyJ].

(** ** The pairs of state and environment a session passes through *)

(** Every emitted state is rendered before the next emission is handled. *)
Definition rendered (state : State) (e : Env) : Prop :=
  forall c, In c (circles state) -> isChild (circle c) (svg e) = true.

Inductive inSession (samples : Samples) (notesArray : list NoteObject) (seed : Z)
  : State -> Env -> Prop :=
| session_start :
    inSession samples notesArray seed
              (currentState notesArray) (startEnv notesArray seed)
| session_emit : forall state e ev newState e',
    inSession samples notesArray seed state e ->
    dispatch samples ev state e = (Ok newState, e') ->
    inSession samples notesArray seed
              newState (snd (render (circles newState) e')).

(** The circles of the state are distinct objects, allocated before now. *)
Definition distinct (state : State) (e : Env) : Prop :=
  NoDup (map self (circles state)) /\
  Forall (fun c => (self c < heap e)%nat) (circles state).

(** ** More of [util.ts] and of the event loop *)

(** [CreateCircle.determineColour]: the fill colour [createCircleObj] puts in
    the style of the element. *)
Definition determineColour (note : NoteObject) : string :=
  let colour := Z.rem (pitch note) 4 in
  match colour with
  | 0 => "green"
  | 1 => "red"
  | 2 => "blue"
  | 3 => "yellow"
  | _ => "error"
  end%string.

(** The kinds of emissions, to count them in a list of events. *)
Definition isTick (ev : Event) : bool :=
  match ev with TickDue => true | _ => false end.

Definition isUserNote (ev : Event) : bool :=
  match ev with NoteDue note => user_played note | _ => false end.

Definition isBackgroundNote (ev : Event) : bool :=
  match ev with NoteDue note => negb (user_played note) | _ => false end.

Definition isKeyPress (ev : Event) : bool :=
  match ev with KeyPress _ => true | _ => false end.

(** The emissions that do not throw in a [playSound] of their own: all but a
    background note whose instrument has the name of an inherited member of
    the dictionary. *)
Definition soundsSafely (samples : Samples) (ev : Event) : bool :=
  match ev with
  | NoteDue note => user_played note || instrumentOk samples note
  | _ => true
  end.

Definition countOf (kind : Event -> bool) (evs : list Event) : nat :=
  List.length (filter kind evs).

(** The environment a session leaves behind. *)
Definition lastEnv (r : list State * (State * Env)) : Env := snd (snd r).

(** What holds of every circle of a session: its note is played by the user,
    its element is in the lane of its note, and it is in the playable area, a
    whole number of ticks below the top. *)
Definition wellPlaced (c : CircleObj) : Prop :=
  user_played (note c) = true /\
  cx (circle c) = determineCxPosition (note c) /\
  0 <= yPos c <= 350 /\
  (5 | yPos c).

(** The score a state can still account for: its score and 10 for every
    circle that may yet be hit. *)
Definition potential (s : State) : Z :=
  score s + 10 * Z.of_nat (List.length (circles s)).





(** * Properties *)

(** ** Sanity checks of the number model *)

Example round53_exact : round53 46348002635 = 46348002635.
Proof. reflexivity. Qed.

Example round53_tie_even : round53 (2 ^ 53 + 1) = 2 ^ 53.
Proof. reflexivity. Qed.

Example round53_tie_up : round53 (2 ^ 53 + 3) = 2 ^ 53 + 4.
Proof. reflexivity. Qed.

Example hash_42 : RNG.hash (Finite 42) = Finite 1250496027.
Proof. vm_compute. reflexivity. Qed.

(** The second hash already differs from the exact congruence: the product
    [a * 1250496027] is above 2^53 and is rounded. *)
Example hash_twice_42 : RNG.hash (RNG.hash (Finite 42)) = Finite 1116302080.
Proof. vm_compute. reflexivity. Qed.

Example hash_twice_42_exact :
  (RNG.a * 1250496027 + RNG.c) mod RNG.m = 1116302264.
Proof. reflexivity. Qed.

Example hash_four_times_42 :
  Nat.iter 4 RNG.hash (Finite 42) = Finite 1500480256.
Proof. vm_compute. reflexivity. Qed.

(** The product of the seed 2^993 is a finite double, that of 2^994 is an
    infinity and the hash is [NaN]. *)
Example hash_before_overflow : RNG.hash (Finite (2 ^ 993)) = Finite 0.
Proof. vm_compute. reflexivity. Qed.

Example hash_overflow : RNG.hash (Finite (2 ^ 994)) = NaN.
Proof. vm_compute. reflexivity. Qed.

Example hash_of_NaN : RNG.hash NaN = NaN /\ RNG.scale NaN = NaN.
Proof. split; reflexivity. Qed.

(** ** The random number generator *)

Lemma round53_pos_nonneg (z : Z) : 0 <= z -> 0 <= round53_pos z.
Proof.
  intros Hz. unfold round53_pos.
  destruct (z <? 2 ^ 53); [exact Hz|].
  set (e := Z.log2 z - 52).
  assert (Hp : 0 <= 2 ^ e) by (apply Z.pow_nonneg; lia).
  assert (Hq : 0 <= z / 2 ^ e) by (apply Z_div_nonneg_nonneg; assumption).
  repeat match goal with |- context [if ?b then _ else _] => destruct b end; nia.
Qed.

Lemma round53_nonneg (z : Z) : 0 <= z -> 0 <= round53 z.
Proof.
  intros Hz. unfold round53.
  destruct (Z.ltb_spec z 0); [lia|]. now apply round53_pos_nonneg.
Qed.

Lemma round53_small (z : Z) : 0 <= z < 2 ^ 53 -> round53 z = z.
Proof.
  intros [H0 H1]. unfold round53, round53_pos.
  destruct (Z.ltb_spec z 0); [lia|].
  destruct (Z.ltb_spec z (2 ^ 53)); [reflexivity|lia].
Qed.

(** What rounding does from 2^53 on: with [e] the exponent of the last bit
    kept, the result is the quotient by [2 ^ e], or the next integer, times
    [2 ^ e]; the quotient has 53 bits. *)
Lemma round53_pos_shape (z : Z) :
  2 ^ 53 <= z ->
  exists e q r,
    1 <= e /\ e = Z.log2 z - 52 /\
    z = q * 2 ^ e + r /\ 0 <= r < 2 ^ e /\
    2 ^ 52 <= q < 2 ^ 53 /\
    (round53_pos z = q * 2 ^ e /\
     (r < 2 ^ (e - 1) \/ r = 2 ^ (e - 1) /\ Z.even q = true) \/
     round53_pos z = (q + 1) * 2 ^ e /\ 2 ^ (e - 1) <= r).
Proof.
  intros Hz.
  assert (H53 : 0 < 2 ^ 53) by reflexivity.
  assert (Hpos : 0 < z) by lia.
  destruct (Z.log2_spec z Hpos) as [Hlo Hhi].
  assert (HL : 53 <= Z.log2 z) by (apply Z.log2_le_pow2; lia).
  set (e := Z.log2 z - 52) in *.
  assert (He : 1 <= e) by (unfold e; lia).
  assert (Hp : 0 < 2 ^ e) by (apply Z.pow_pos_nonneg; lia).
  assert (Hsplit : 2 ^ Z.log2 z = 2 ^ 52 * 2 ^ e).
  { rewrite <- Z.pow_add_r by lia. f_equal. unfold e. lia. }
  assert (Hsplit' : 2 ^ Z.succ (Z.log2 z) = 2 ^ 53 * 2 ^ e).
  { rewrite <- Z.pow_add_r by lia. f_equal. unfold e. lia. }
  pose proof (Z.div_mod z (2 ^ e) ltac:(lia)) as Hdm.
  pose proof (Z.mod_pos_bound z (2 ^ e) Hp) as Hr.
  assert (Hq1 : 2 ^ 52 <= z / 2 ^ e).
  { apply Z.div_le_lower_bound; [exact Hp|]. rewrite Z.mul_comm. lia. }
  assert (Hq2 : z / 2 ^ e < 2 ^ 53).
  { apply Z.div_lt_upper_bound; [exact Hp|]. lia. }
  exists e, (z / 2 ^ e), (z mod 2 ^ e).
  split; [exact He|]. split; [reflexivity|].
  split; [lia|]. split; [exact Hr|]. split; [split; assumption|].
  unfold round53_pos. fold e.
  destruct (Z.ltb_spec z (2 ^ 53)); [lia|].
  destruct (Z.ltb_spec (z mod 2 ^ e) (2 ^ (e - 1))); [left; split; auto|].
  destruct (Z.ltb_spec (2 ^ (e - 1)) (z mod 2 ^ e)); [right; now split|].
  destruct (Z.even (z / 2 ^ e)) eqn:Heven; [|right; now split].
  left. split; [reflexivity|]. right. split; [lia | reflexivity].
Qed.

(** From 2^53 on a double is even, and rounding does not go below 2^53. *)
Lemma round53_pos_large (z : Z) :
  2 ^ 53 <= z -> 2 ^ 53 <= round53_pos z /\ Z.even (round53_pos z) = true.
Proof.
  intros Hz.
  destruct (round53_pos_shape z Hz)
    as (e & q & r & He & _ & _ & _ & [Hq1 Hq2] & Hres).
  assert (Hp : 2 ^ e = 2 * 2 ^ (e - 1)).
  { rewrite <- Z.pow_succ_r by lia. f_equal. lia. }
  assert (Hp1 : 1 <= 2 ^ (e - 1)).
  { pose proof (Z.pow_pos_nonneg 2 (e - 1) ltac:(lia) ltac:(lia)). lia. }
  change (2 ^ 53) with (2 ^ 52 * 2) in *.
  assert (H52 : 0 < 2 ^ 52) by reflexivity.
  destruct Hres as [[-> _] | [-> _]]; rewrite Hp; split;
    try nia;
    rewrite Z.mul_assoc, (Z.mul_comm _ 2), <- Z.mul_assoc;
    rewrite Z.even_mul; reflexivity.
Qed.

(** Below the overflow threshold, half an ulp under 2^1024, the rounded
    value is at most the largest double. *)
Lemma round53_pos_finite (z : Z) :
  0 <= z < 2 ^ 1024 - 2 ^ 970 -> round53_pos z <= 2 ^ 1024 - 2 ^ 971.
Proof.
  intros [H0 Hz].
  assert (Hc1 : 2 ^ 53 <= 2 ^ 1024 - 2 ^ 971) by (vm_compute; discriminate).
  destruct (Z.lt_ge_cases z (2 ^ 53)) as [Hsmall|Hlarge].
  - unfold round53_pos. destruct (Z.ltb_spec z (2 ^ 53)); lia.
  - destruct (round53_pos_shape z Hlarge)
      as (e & q & r & He & Hedef & Hzq & Hr & [Hq1 Hq2] & Hres).
    assert (HL : Z.log2 z < 1024).
    { apply Z.log2_lt_pow2; [lia|].
      assert (2 ^ 1024 - 2 ^ 970 < 2 ^ 1024) by (vm_compute; reflexivity). lia. }
    assert (Hp : 0 < 2 ^ e) by (apply Z.pow_pos_nonneg; lia).
    destruct (Z.le_gt_cases e 970) as [Hlow|Hhigh].
    + (* below 2^1023: at most 2^1023 *)
      assert (Hle : (q + 1) * 2 ^ e <= 2 ^ 53 * 2 ^ 970).
      { apply Z.mul_le_mono_nonneg; try lia.
        apply Z.pow_le_mono_r; lia. }
      assert (Hc2 : 2 ^ 53 * 2 ^ 970 <= 2 ^ 1024 - 2 ^ 971)
        by (vm_compute; discriminate).
      destruct Hres as [[-> _] | [-> _]]; nia.
    + assert (Ee : e = 971) by lia. subst e. rewrite Ee in *.
      assert (Hh : 2 ^ (971 - 1) = 2 ^ 970) by reflexivity.
      rewrite Hh in Hres.
      assert (HP : 2 ^ 971 = 2 * 2 ^ 970) by (vm_compute; reflexivity).
      assert (HT : 2 ^ 1024 = 2 ^ 53 * (2 * 2 ^ 970)) by (vm_compute; reflexivity).
      assert (Hh0 : 0 < 2 ^ 970) by reflexivity.
      rewrite HT, HP in *.
      set (h := 2 ^ 970) in *. clearbody h.
      change (2 ^ 53) with 9007199254740992 in *.
      destruct Hres as [[-> _] | [-> Hup]]; nia.
Qed.

(** From the threshold on, the rounded value is 2^1024 or more: the
    operation overflows. *)
Lemma round53_pos_overflow (z : Z) :
  2 ^ 1024 - 2 ^ 970 <= z -> 2 ^ 1024 <= round53_pos z.
Proof.
  intros Hz.
  assert (Hc1 : 2 ^ 53 <= 2 ^ 1024 - 2 ^ 970) by (vm_compute; discriminate).
  assert (Hc2 : 2 ^ 1023 <= 2 ^ 1024 - 2 ^ 970) by (vm_compute; discriminate).
  destruct (round53_pos_shape z ltac:(lia))
    as (e & q & r & He & Hedef & Hzq & Hr & [Hq1 Hq2] & Hres).
  assert (HL : 1023 <= Z.log2 z) by (apply Z.log2_le_pow2; lia).
  assert (Hp : 0 < 2 ^ e) by (apply Z.pow_pos_nonneg; lia).
  destruct (Z.le_gt_cases 972 e) as [Hhigh|Hlow].
  - assert (Hle : 2 ^ 52 * 2 ^ 972 <= q * 2 ^ e).
    { apply Z.mul_le_mono_nonneg.
      - vm_compute. discriminate.
      - exact Hq1.
      - apply Z.pow_nonneg. lia.
      - apply Z.pow_le_mono_r; lia. }
    assert (Hc3 : 2 ^ 1024 = 2 ^ 52 * 2 ^ 972) by (vm_compute; reflexivity).
    destruct Hres as [[-> _] | [-> _]]; nia.
  - assert (Ee : e = 971) by lia. subst e. rewrite Ee in *.
    assert (Hh : 2 ^ (971 - 1) = 2 ^ 970) by reflexivity.
    rewrite Hh in Hres.
    assert (HP : 2 ^ 971 = 2 * 2 ^ 970) by (vm_compute; reflexivity).
    assert (HT : 2 ^ 1024 = 2 ^ 53 * (2 * 2 ^ 970)) by (vm_compute; reflexivity).
    assert (Hh0 : 0 < 2 ^ 970) by reflexivity.
    rewrite HT, HP in *.
    set (h := 2 ^ 970) in *. clearbody h.
    change (2 ^ 53) with 9007199254740992 in *.
    assert (Hq : q = 9007199254740991) by nia.
    subst q.
    destruct Hres as [[_ [Hdown | [_ Hodd]]] | [-> _]];
      [nia | discriminate Hodd | nia].
Qed.

(** A seed whose product reaches the threshold is hashed to [NaN]. *)
Lemma hash_overflows (seed : Z) :
  2 ^ 1024 - 2 ^ 970 <= RNG.a * seed -> RNG.hash (Finite seed) = NaN.
Proof.
  intros Hb.
  assert (Hc : 0 < 2 ^ 1024 - 2 ^ 970) by (vm_compute; reflexivity).
  pose proof (round53_pos_overflow _ Hb) as Hbig.
  unfold RNG.hash. cbv zeta.
  assert (Hinf : isFinite (round53 (RNG.a * seed)) = false).
  { unfold isFinite, round53.
    destruct (Z.ltb_spec (RNG.a * seed) 0); [lia|].
    apply Z.ltb_ge. rewrite Z.abs_eq; lia. }
  now rewrite Hinf.
Qed.

Lemma round53_finite (z : Z) :
  0 <= z < 2 ^ 1024 - 2 ^ 970 ->
  0 <= round53 z <= 2 ^ 1024 - 2 ^ 971 /\ isFinite (round53 z) = true.
Proof.
  intros Hz.
  assert (Hr : 0 <= round53 z <= 2 ^ 1024 - 2 ^ 971).
  { split; [apply round53_nonneg; lia|].
    unfold round53. destruct (Z.ltb_spec z 0); [lia|].
    now apply round53_pos_finite. }
  split; [exact Hr|]. unfold isFinite. apply Z.ltb_lt.
  assert (2 ^ 1024 - 2 ^ 971 < 2 ^ 1024) by (vm_compute; reflexivity).
  rewrite Z.abs_eq; lia.
Qed.

(** A seed of at least 0 whose product does not overflow has a finite
    hash. *)
Lemma hash_finite (seed : Z) :
  0 <= seed ->
  RNG.a * seed < 2 ^ 1024 - 2 ^ 970 ->
  RNG.hash (Finite seed)
  = Finite (Z.rem (round53 (round53 (RNG.a * seed) + RNG.c)) RNG.m).
Proof.
  intros Hs Hb.
  assert (Ha : 0 <= RNG.a * seed) by (unfold RNG.a; lia).
  destruct (round53_finite (RNG.a * seed) (conj Ha Hb)) as [[Hp0 Hp1] Hfp].
  assert (Hgap : 2 ^ 1024 - 2 ^ 971 + RNG.c < 2 ^ 1024 - 2 ^ 970)
    by (vm_compute; reflexivity).
  assert (Hsum : 0 <= round53 (RNG.a * seed) + RNG.c < 2 ^ 1024 - 2 ^ 970)
    by (unfold RNG.c in *; lia).
  destruct (round53_finite _ Hsum) as [_ Hfs].
  unfold RNG.hash. cbv zeta. now rewrite Hfp, Hfs.
Qed.

(** No seed of at least 0 is hashed to [m - 1], the one hash [RNG.scale]
    takes to 1.  A sum of 2^53 or more is rounded to an even double, and
    [m - 1] is odd; below, the hash is the exact congruence, which takes the
    value [m - 1] at 230538014 and at no smaller seed, far beyond the seeds
    whose sum stays below 2^53. *)
Lemma hash_never_top (seed : Z) :
  0 <= seed -> RNG.hash (Finite seed) <> Finite (RNG.m - 1).
Proof.
  intros Hs. unfold RNG.hash. cbv zeta.
  destruct (isFinite (round53 (RNG.a * seed)) &&
            isFinite (round53 (round53 (RNG.a * seed) + RNG.c)));
    [|discriminate].
  intros H0.
  assert (H := f_equal (fun x => match x with Finite h => h | NaN => 0 end) H0).
  cbv beta iota in H. clear H0.
  assert (Ha : 0 <= RNG.a * seed) by (unfold RNG.a; lia).
  assert (Hp : 0 <= round53 (RNG.a * seed)) by now apply round53_nonneg.
  assert (Hsum0 : 0 <= round53 (RNG.a * seed) + RNG.c) by (unfold RNG.c; lia).
  assert (Hr : 0 <= round53 (round53 (RNG.a * seed) + RNG.c))
    by now apply round53_nonneg.
  rewrite Z.rem_mod_nonneg in H by (unfold RNG.m; lia).
  destruct (Z.lt_ge_cases (round53 (RNG.a * seed) + RNG.c) (2 ^ 53))
    as [Hsmall|Hlarge].
  - assert (Hprod : RNG.a * seed < 2 ^ 53).
    { destruct (Z.lt_ge_cases (RNG.a * seed) (2 ^ 53)) as [Hlt|Hge]; [exact Hlt|].
      destruct (round53_pos_large _ Hge) as [Hbig _].
      unfold round53 in Hsmall.
      destruct (Z.ltb_spec (RNG.a * seed) 0); [lia|].
      unfold RNG.c in Hsmall. lia. }
    rewrite (round53_small (RNG.a * seed)) in H, Hsmall, Hsum0 by lia.
    rewrite (round53_small (RNG.a * seed + RNG.c)) in H by lia.
    pose proof (Z.div_mod (RNG.a * seed + RNG.c) RNG.m ltac:(unfold RNG.m; lia))
      as Hdm.
    rewrite H in Hdm.
    unfold RNG.a, RNG.c, RNG.m in *.
    change (2 ^ 53) with 9007199254740992 in *.
    set (k := (1103515245 * seed + 12345) / 2147483648) in *. clearbody k.
    clear H Hp Hr Hsum0 Ha.
    assert (Hk : seed = 230538014 + 2147483648 * (1857678181 * k + 1857678180
                                                   - 954594553 * seed - 10678)).
    { lia. }
    lia.
  - assert (Heven : Z.even (round53 (round53 (RNG.a * seed) + RNG.c)) = true).
    { unfold round53 at 1.
      destruct (Z.ltb_spec (round53 (RNG.a * seed) + RNG.c) 0); [lia|].
      now apply round53_pos_large. }
    apply Zeven_bool_iff, Zeven_ex in Heven. destruct Heven as (half & Hhalf).
    rewrite Hhalf in H.
    pose proof (Z.div_mod (2 * half) RNG.m ltac:(unfold RNG.m; lia)) as Hdm.
    rewrite H in Hdm. unfold RNG.m in *. lia.
Qed.

(** The hash of such a seed is in [[0, m - 2]]. *)
Lemma hash_range (seed : Z) :
  0 <= seed ->
  RNG.a * seed < 2 ^ 1024 - 2 ^ 970 ->
  exists h, RNG.hash (Finite seed) = Finite h /\ 0 <= h < RNG.m - 1.
Proof.
  intros Hs Hb. pose proof (hash_never_top seed Hs) as Htop.
  rewrite (hash_finite seed Hs Hb) in *. eexists. split; [reflexivity|].
  assert (H : 0 <= round53 (round53 (RNG.a * seed) + RNG.c)).
  { apply round53_nonneg.
    assert (0 <= round53 (RNG.a * seed))
      by (apply round53_nonneg; unfold RNG.a; lia).
    unfold RNG.c; lia. }
  pose proof (Z.rem_bound_pos _ RNG.m H ltac:(unfold RNG.m; lia)).
  assert (Z.rem (round53 (round53 (RNG.a * seed) + RNG.c)) RNG.m <> RNG.m - 1)
    by congruence.
  lia.
Qed.

(** A hash is far below the overflow threshold. *)
Lemma hash_product_finite (h : Z) :
  h <= RNG.m - 1 -> RNG.a * h < 2 ^ 1024 - 2 ^ 970.
Proof.
  intros Hh.
  assert (Hc : RNG.a * (RNG.m - 1) < 2 ^ 1024 - 2 ^ 970)
    by (vm_compute; reflexivity).
  unfold RNG.a, RNG.m in *. lia.
Qed.

Lemma iter_hash_range (seed : Z) (n : nat) :
  0 <= seed ->
  RNG.a * seed < 2 ^ 1024 - 2 ^ 970 ->
  exists h,
    Nat.iter (S n) RNG.hash (Finite seed) = Finite h /\ 0 <= h < RNG.m - 1.
Proof.
  intros Hs Hb. induction n as [|n (h & IH & Hh)].
  - now apply hash_range.
  - change (Nat.iter (S (S n)) RNG.hash (Finite seed))
      with (RNG.hash (Nat.iter (S n) RNG.hash (Finite seed))).
    rewrite IH. apply hash_range; [lia|]. apply hash_product_finite. lia.
Qed.

Lemma scale_as_product (h : Z) :
  (inject_Z (2 * h) / inject_Z (RNG.m - 1) - 1
   == inject_Z h * (2 # 2147483647) - 1)%Q.
Proof.
  unfold RNG.m. rewrite inject_Z_mult.
  change (inject_Z (2147483648 - 1)) with (2147483647 # 1)%Q.
  change (inject_Z 2) with 2%Q. field.
Qed.

Lemma scale_range (h : Z) (v : Q) :
  RNG.scale (Finite h) = Finite v ->
  0 <= h <= RNG.m - 1 -> (-1 <= v /\ v <= 1)%Q.
Proof.
  intros E [H0 H1].
  assert (Ev : v = (inject_Z (2 * h) / inject_Z (RNG.m - 1) - 1)%Q)
    by (unfold RNG.scale in E; congruence).
  subst v. unfold RNG.m in H1.
  rewrite Zle_Qle in H0, H1. rewrite scale_as_product.
  change (inject_Z (2147483648 - 1)) with (2147483647 # 1)%Q in H1.
  change (inject_Z 0) with 0%Q in H0.
  split; lra.
Qed.

Lemma scale_below_one (h : Z) (v : Q) :
  RNG.scale (Finite h) = Finite v ->
  h < RNG.m - 1 -> (v < 1)%Q.
Proof.
  intros E H.
  assert (Ev : v = (inject_Z (2 * h) / inject_Z (RNG.m - 1) - 1)%Q)
    by (unfold RNG.scale in E; congruence).
  subst v. unfold RNG.m in H.
  rewrite Zlt_Qlt in H. rewrite scale_as_product.
  change (inject_Z (2147483648 - 1)) with (2147483647 # 1)%Q in H. lra.
Qed.

Lemma scale_top :
  exists v, RNG.scale (Finite (RNG.m - 1)) = Finite v /\ (v == 1)%Q.
Proof. eexists. split; reflexivity. Qed.

Lemma nthCall_closed_form (n : nat) (s : LazySequence) :
  nthCall n s = RNG.scale (Nat.iter (S n) RNG.hash (value s)).
Proof.
  revert s. induction n as [|n IH]; intros s.
  - reflexivity.
  - cbn [nthCall]. rewrite IH. cbn [getRandomValue snd next lazyRNG value].
    f_equal. rewrite <- !Nat.iter_succ_r. reflexivity.
Qed.

(** Once the generator holds [NaN] it returns [NaN] for ever. *)
Lemma iter_hash_NaN (n : nat) : Nat.iter n RNG.hash NaN = NaN.
Proof.
  induction n as [|n IH]; [reflexivity|]. now rewrite Nat.iter_succ, IH.
Qed.

(** C8.  Claimed: for every integer seed of at least 0 and every call count
    the value returned lies in [[-1, 1]], and streams of the same seed agree.
    The range holds as long as the product [a * seed] of the first hash is a
    finite double, that is below [2^1024 - 2^970] (seeds up to about
    1.6e299): the stream is then the sequence of [RNG.hash], scaled, call
    number [n + 1] returns [RNG.scale] of the seed hashed [n + 1] times, that
    value lies in [[-1, 1]], and two streams created from the same seed
    return the same value at every call count. *)
Theorem rng_stream_range_and_reproducible (seed : Z) (n : nat) :
  0 <= seed ->
  RNG.a * seed < 2 ^ 1024 - 2 ^ 970 ->
  inUnitRange (nthCall n (createTriggeredRngStream seed)) /\
  nthCall n (createTriggeredRngStream seed)
    = RNG.scale (Nat.iter (S n) RNG.hash (Finite seed)) /\
  (forall g1 g2 : LazySequence,
      g1 = createTriggeredRngStream seed ->
      g2 = createTriggeredRngStream seed ->
      nthCall n g1 = nthCall n g2).
Proof.
  intros Hs Hb. split; [|split].
  - rewrite nthCall_closed_form.
    cbn [createTriggeredRngStream lazyRNG value].
    destruct (iter_hash_range seed n Hs Hb) as (h & -> & Hh).
    unfold inUnitRange.
    destruct (RNG.scale (Finite h)) as [v|] eqn:E; [|discriminate E].
    apply (scale_range h v E). lia.
  - now rewrite nthCall_closed_form.
  - intros g1 g2 -> ->. reflexivity.
Qed.

Lemma rng_stream_range_and_reproducible_witness :
  0 <= 42 /\ RNG.a * 42 < 2 ^ 1024 - 2 ^ 970 /\
  inUnitRange (nthCall 2 (createTriggeredRngStream 42)).
Proof.
  assert (Hb : RNG.a * 42 < 2 ^ 1024 - 2 ^ 970) by (vm_compute; reflexivity).
  assert (Hs : 0 <= 42) by lia.
  split; [exact Hs | split; [exact Hb|]].
  exact (proj1 (rng_stream_range_and_reproducible 42 2 Hs Hb)).
Defined.

(** From the threshold on every call of the stream returns [NaN]. *)
Lemma nthCall_overflow (seed : Z) (n : nat) :
  2 ^ 1024 - 2 ^ 970 <= RNG.a * seed ->
  nthCall n (createTriggeredRngStream seed) = NaN.
Proof.
  intros Hb. rewrite nthCall_closed_form.
  cbn [createTriggeredRngStream lazyRNG value].
  rewrite Nat.iter_succ_r, (hash_overflows seed Hb), iter_hash_NaN. reflexivity.
Qed.

(** Beyond the threshold the claim fails: 2^994 is an integer and a double,
    its product with [a] overflows, and every call of the stream returns
    [NaN], which lies in no range. *)
Lemma rng_stream_leaves_range_at_huge_seed :
  0 <= 2 ^ 994 /\
  (forall n, nthCall n (createTriggeredRngStream (2 ^ 994)) = NaN) /\
  ~ inUnitRange (nthCall 0 (createTriggeredRngStream (2 ^ 994))).
Proof.
  assert (H1 : RNG.hash (Finite (2 ^ 994)) = NaN) by (vm_compute; reflexivity).
  assert (Hn : forall n, nthCall n (createTriggeredRngStream (2 ^ 994)) = NaN).
  { intros n. rewrite nthCall_closed_form.
    cbn [createTriggeredRngStream lazyRNG value].
    rewrite Nat.iter_succ_r, H1, iter_hash_NaN. reflexivity. }
  split; [vm_compute; discriminate|]. split; [exact Hn|].
  rewrite Hn. intros [].
Qed.

(** Without the sign condition the range is lost as well: [%] keeps the sign
    of a negative seed's hash. *)
Example negative_seed_leaves_range :
  exists v, nthCall 0 (createTriggeredRngStream (-1)) = Finite v /\ (v < -1)%Q.
Proof. eexists. split; vm_compute; reflexivity. Qed.

(** ** The random index of the miss branch *)

Lemma arrayGet_in_bounds {A : Type} (l : list A) (i : Z) :
  0 <= i <= Z.of_nat (List.length l) - 1 -> exists x, arrayGet l i = Some x.
Proof.
  intros [H0 H1]. unfold arrayGet.
  destruct (Z.ltb_spec i 0); [lia|].
  destruct (nth_error l (Z.to_nat i)) as [x|] eqn:E; [now exists x|].
  apply nth_error_None in E. lia.
Qed.

Lemma arrayGet_at_length {A : Type} (l : list A) :
  arrayGet l (Z.of_nat (List.length l)) = None.
Proof.
  unfold arrayGet. destruct (Z.ltb_spec (Z.of_nat (List.length l)) 0); [reflexivity|].
  apply nth_error_None. lia.
Qed.

Lemma arrayGet_nil {A : Type} (i : Z) : arrayGet (@nil A) i = None.
Proof.
  unfold arrayGet. destruct (i <? 0); [reflexivity|].
  now destruct (Z.to_nat i).
Qed.

(** C10.  For a non-empty chart and a random value [v] with [-1 <= v < 1], in
    exact rational arithmetic, the index [floor ((v + 1) / 2 * n)] of the miss
    branch lies in [[0, n - 1]], and the lookup of the random note finds a
    note. *)
Theorem random_index_in_bounds (chart : list NoteObject) (v : Q) :
  chart <> [] ->
  (-1 <= v)%Q ->
  (v < 1)%Q ->
  0 <= randomIndex v (List.length chart) <= Z.of_nat (List.length chart) - 1 /\
  exists randomNote,
    arrayGet chart (randomIndex v (List.length chart)) = Some randomNote.
Proof.
  intros Hne Hlo Hhi.
  assert (Hn : (0 < Z.of_nat (List.length chart))%Z)
    by (destruct chart; [congruence | cbn [List.length]; lia]).
  set (n := Z.of_nat (List.length chart)) in *.
  assert (Hq : (0 < inject_Z n)%Q) by (now rewrite Zlt_Qlt in Hn).
  assert (Hhalf : ((v + 1) / 2 == (v + 1) * (1 # 2))%Q) by field.
  assert (Hf0 : (0 <= (v + 1) / 2)%Q) by (rewrite Hhalf; lra).
  assert (Hf1 : ((v + 1) / 2 < 1)%Q) by (rewrite Hhalf; lra).
  assert (Hbounds : 0 <= randomIndex v (List.length chart) <= n - 1).
  { unfold randomIndex. fold n. split.
    - change 0 with (Qfloor 0). apply Qfloor_resp_le.
      apply Qmult_le_0_compat; [exact Hf0 | now apply Qlt_le_weak].
    - assert (Hlt : (inject_Z (Qfloor ((v + 1) / 2 * inject_Z n)) < inject_Z n)%Q).
      { eapply Qle_lt_trans; [apply Qfloor_le|].
        setoid_replace (inject_Z n) with (1 * inject_Z n)%Q at 2 by ring.
        apply Qmult_lt_compat_r; [exact Hq | exact Hf1]. }
      rewrite <- Zlt_Qlt in Hlt. lia. }
  split; [exact Hbounds | now apply arrayGet_in_bounds].
Qed.

Lemma random_index_in_bounds_witness :
  pianoChart <> [] /\ (-1 <= 1 # 2)%Q /\ (1 # 2 < 1)%Q /\
  0 <= randomIndex (1 # 2) (List.length pianoChart)
    <= Z.of_nat (List.length pianoChart) - 1.
Proof.
  assert (Hne : pianoChart <> []) by discriminate.
  assert (Hlo : (-1 <= 1 # 2)%Q) by (vm_compute; discriminate).
  assert (Hhi : (1 # 2 < 1)%Q) by reflexivity.
  repeat split; try assumption;
    apply (random_index_in_bounds pianoChart (1 # 2) Hne Hlo Hhi).
Defined.

(** At [v = 1], which [RNG.scale] returns for the hash [RNG.m - 1], the index is
    the length of the chart and the lookup is [undefined].  (No seed of at
    least 0 is hashed to [RNG.m - 1]: [hash_never_top].) *)
Lemma random_index_at_one (chart : list NoteObject) :
  randomIndex 1 (List.length chart) = Z.of_nat (List.length chart) /\
  arrayGet chart (randomIndex 1 (List.length chart)) = None.
Proof.
  assert (E : randomIndex 1 (List.length chart) = Z.of_nat (List.length chart)).
  { unfold randomIndex.
    rewrite <- (Qfloor_Z (Z.of_nat (List.length chart))) at 2.
    apply Qfloor_comp. field. }
  split; [exact E | rewrite E; apply arrayGet_at_length].
Qed.

Lemma randomNoteFor_nil (v : number Q) : randomNoteFor v [] = None.
Proof. destruct v as [v|]; [apply arrayGet_nil | reflexivity]. Qed.

Lemma arrayGet_In {A : Type} (l : list A) (i : Z) (x : A) :
  arrayGet l i = Some x -> In x l.
Proof.
  unfold arrayGet. destruct (i <? 0); [discriminate|]. apply nth_error_In.
Qed.

(** The random note, when there is one, is a note of the chart. *)
Lemma randomNoteFor_In (v : number Q) (chart : list NoteObject) (n : NoteObject) :
  randomNoteFor v chart = Some n -> In n chart.
Proof.
  destruct v as [v|]; [apply arrayGet_In | discriminate].
Qed.

(** ** Lists *)

Lemma filter_keeps_all {A : Type} (f : A -> bool) (l : list A) :
  (forall x, In x l -> f x = true) -> filter f l = l.
Proof.
  induction l as [|x l IH]; intros H; [reflexivity|].
  cbn. rewrite (H x (or_introl eq_refl)). f_equal. apply IH.
  intros y Hy. apply H. now right.
Qed.

Lemma filter_none {A : Type} (f : A -> bool) (l : list A) :
  (forall x, In x l -> f x = false) -> filter f l = [].
Proof.
  induction l as [|x l IH]; intros H; [reflexivity|].
  cbn. rewrite (H x (or_introl eq_refl)). apply IH.
  intros y Hy. apply H. now right.
Qed.

Lemma Forall_filter {A : Type} (P : A -> Prop) (f : A -> bool) (l : list A) :
  Forall P l -> Forall P (filter f l).
Proof.
  intros H. apply Forall_forall. intros x Hx.
  apply filter_In in Hx. destruct Hx as [Hx _].
  revert x Hx. now apply Forall_forall.
Qed.

(** Filtering an array of distinct objects leaves distinct objects. *)
Lemma filter_keeps_distinct (keep : CircleObj -> bool) (cs : list CircleObj) :
  NoDup (map self cs) -> NoDup (map self (filter keep cs)).
Proof.
  intros Hnd. induction cs as [|c cs IH]; cbn [filter map] in *.
  - constructor.
  - apply NoDup_cons_iff in Hnd. destruct Hnd as [Hc Hcs].
    destruct (keep c); cbn [map]; [|now apply IH].
    constructor; [|now apply IH].
    intros Hin. apply Hc. apply in_map_iff in Hin.
    destruct Hin as (c' & Heq & Hin). apply filter_In in Hin.
    apply in_map_iff. exists c'. tauto.
Qed.

(** In an array of distinct objects, filtering one object out by reference
    removes one slot. *)
Lemma filter_out_unique (hit : CircleObj) (cs : list CircleObj) :
  In hit cs ->
  NoDup (map self cs) ->
  exists before after,
    cs = before ++ hit :: after /\
    filter (fun c => negb (Nat.eqb (self c) (self hit))) cs = before ++ after.
Proof.
  intros Hin Hnd. apply in_split in Hin. destruct Hin as (before & after & ->).
  exists before, after. split; [reflexivity|].
  rewrite map_app in Hnd. cbn [map] in Hnd.
  pose proof (NoDup_remove_2 _ _ _ Hnd) as Hnotin.
  rewrite filter_app. cbn [filter]. rewrite Nat.eqb_refl. cbn [negb].
  rewrite !filter_keeps_all; [reflexivity| |];
    intros x Hx; apply negb_true_iff, Nat.eqb_neq; intros Heq;
    apply Hnotin, in_or_app; [right|left]; rewrite <- Heq; now apply in_map.
Qed.

(** ** Steps of the monad *)

Lemma playSound_some (n : NoteObject) (samples : Samples) (e : Env) :
  instrumentOk samples n = true ->
  exists e',
    playSound (Some n) samples e = (Ok tt, e') /\
    svg e' = svg e /\ currentSequence e' = currentSequence e /\
    heap e' = heap e.
Proof.
  unfold instrumentOk, playSound.
  destruct (hasInstrument samples (instrument_name n)).
  - intros _. eexists. split; [reflexivity|]. cbn. auto.
  - destruct (isInherited (instrument_name n)); [discriminate|].
    intros _. exists e. split; [reflexivity|]. auto.
Qed.

(** An instrument name that is an inherited member of the dictionary makes
    [playSound] throw, before anything is triggered. *)
Lemma playSound_inherited (n : NoteObject) (samples : Samples) (e : Env) :
  instrumentOk samples n = false ->
  playSound (Some n) samples e = (Throw TypeError, e).
Proof.
  unfold instrumentOk, playSound.
  destruct (hasInstrument samples (instrument_name n)); [discriminate|].
  destruct (isInherited (instrument_name n)); [reflexivity | discriminate].
Qed.

(** A note whose instrument is not the name of an inherited member plays
    under every dictionary. *)
Lemma instrumentOk_not_inherited (n : NoteObject) (samples : Samples) :
  isInherited (instrument_name n) = false -> instrumentOk samples n = true.
Proof. unfold instrumentOk. intros ->. apply orb_true_r. Qed.

Lemma playSound_undefined (samples : Samples) (e : Env) :
  playSound None samples e = (Throw TypeError, e).
Proof. reflexivity. Qed.

Lemma mapAlloc_run {A B : Type} (f : loc -> A -> B) (l : list A) (e : Env) :
  mapAlloc f l e =
  (Ok (map (fun p => f (fst p) (snd p))
           (combine (seq (heap e) (List.length l)) l)),
   {| svg := svg e; currentSequence := currentSequence e;
      heap := (heap e + List.length l)%nat; audio := audio e |}).
Proof.
  revert e. induction l as [|x l IH]; intros e.
  - destruct e as [sv cur h au]. cbn. unfold ret. now rewrite Nat.add_0_r.
  - cbn [mapAlloc]. unfold bind at 1. cbn [alloc].
    unfold bind at 1. rewrite IH. cbn.
    unfold ret. rewrite Nat.add_succ_r. reflexivity.
Qed.

Lemma createCircleObj_run (n : NoteObject) (e : Env) :
  createCircleObj n e =
  (Ok {| self := S (heap e); note := n;
         circle := {| node := heap e; cx := determineCxPosition n |};
         yPos := 0 |},
   {| svg := svg e; currentSequence := currentSequence e;
      heap := S (S (heap e)); audio := audio e |}).
Proof. reflexivity. Qed.

Lemma isChild_appended (x child : SVGElement) (children : list SVGElement) :
  isChild x children = true \/ sameNode x child = true ->
  isChild x (without child children ++ [child]) = true.
Proof.
  unfold isChild, without. intros H. rewrite existsb_app. cbn [existsb].
  destruct (sameNode x child) eqn:E; [now rewrite !orb_true_r|].
  destruct H as [H|H]; [|discriminate].
  apply existsb_exists in H. destruct H as (y & Hy & Hxy).
  apply orb_true_iff. left. apply existsb_exists. exists y. split; [|exact Hxy].
  apply filter_In. split; [exact Hy|].
  unfold sameNode in *. apply Nat.eqb_eq in Hxy. apply Nat.eqb_neq in E.
  apply negb_true_iff, Nat.eqb_neq. congruence.
Qed.

Lemma render_run (cs : list CircleObj) (e : Env) :
  exists e',
    render cs e = (Ok tt, e') /\
    currentSequence e' = currentSequence e /\ heap e' = heap e /\
    audio e' = audio e /\
    (forall x, isChild x (svg e) = true -> isChild x (svg e') = true) /\
    (forall c, In c cs -> isChild (circle c) (svg e') = true).
Proof.
  revert e. induction cs as [|c cs IH]; intros e.
  - exists e. cbn. repeat split; auto.
  - cbn [render]. unfold bind. cbn [appendChild].
    destruct (IH {| svg := without (circle c) (svg e) ++ [circle c];
                    currentSequence := currentSequence e; heap := heap e;
                    audio := audio e |})
      as (e' & Hr & Hs & Hh & Ha & Hold & Hin).
    cbn [svg currentSequence heap audio] in *.
    exists e'. rewrite Hr. repeat split; auto.
    + intros x Hx. apply Hold, isChild_appended. now left.
    + intros c' [<-|Hc']; [|now apply Hin].
      apply Hold, isChild_appended. right. apply Nat.eqb_refl.
Qed.

(** ** [Tick] *)

Lemma Tick_apply_run (s : State) (e : Env) :
  Tick.apply s e =
  (Ok {| gameEnd := gameEnd s; notes := notes s; score := score s;
         time := time s + 1;
         circles :=
           filter (fun c => yPos c <=? 350)
                  (map (fun p => Tick.moved (fst p) (snd p))
                       (combine (seq (heap e) (List.length (circles s)))
                                (circles s)));
         exits := exits s ++ filter (fun c => yPos c >? 350) (circles s) |},
   {| svg := svg e; currentSequence := currentSequence e;
      heap := (heap e + List.length (circles s))%nat; audio := audio e |}).
Proof.
  unfold Tick.apply, bind. rewrite mapAlloc_run. reflexivity.
Qed.

Lemma In_moved (c' : CircleObj) (cs : list CircleObj) (a : loc) :
  In c' (map (fun p => Tick.moved (fst p) (snd p))
             (combine (seq a (List.length cs)) cs)) ->
  exists c, In c cs /\ note c' = note c /\ circle c' = circle c /\
            yPos c' = yPos c + 5.
Proof.
  intros H. apply in_map_iff in H. destruct H as ([b c] & <- & Hin).
  exists c. split; [eapply in_combine_r; exact Hin | cbn; auto].
Qed.

Lemma moved_In (c : CircleObj) (cs : list CircleObj) (a : loc) :
  In c cs ->
  exists b, In (Tick.moved b c)
               (map (fun p => Tick.moved (fst p) (snd p))
                    (combine (seq a (List.length cs)) cs)).
Proof.
  revert a. induction cs as [|x cs IH]; intros a; [intros []|].
  intros [->|Hin].
  - exists a. cbn. now left.
  - destruct (IH (S a) Hin) as (b & Hb). exists b. cbn. now right.
Qed.

Lemma moved_addresses (cs : list CircleObj) (a : loc) :
  map self (map (fun p => Tick.moved (fst p) (snd p))
                (combine (seq a (List.length cs)) cs))
  = seq a (List.length cs).
Proof.
  revert a. induction cs as [|c cs IH]; intros a; [reflexivity|].
  cbn. f_equal. apply IH.
Qed.

(** The part of the exit partition the code does keep: after a tick every
    circle of [circles] is a circle of before, 5 lower and still at most at
    350; every circle that stays at most at 350 is kept; the old [exits] are a
    prefix of the new; [time] is one more. *)
Lemma Tick_keeps_playable (s : State) (e : Env) :
  exists s' e',
    Tick.apply s e = (Ok s', e') /\
    (forall c', In c' (circles s') ->
       yPos c' <= 350 /\
       exists c, In c (circles s) /\ note c' = note c /\
                 circle c' = circle c /\ yPos c' = yPos c + 5) /\
    (forall c, In c (circles s) -> yPos c + 5 <= 350 ->
       exists b, In (Tick.moved b c) (circles s')) /\
    (exists newExits, exits s' = exits s ++ newExits) /\
    time s' = time s + 1 /\ score s' = score s.
Proof.
  eexists. eexists. split; [apply Tick_apply_run|].
  cbn [circles exits time score].
  split; [|split; [|split; [|split; reflexivity]]].
  - intros c' H. apply filter_In in H. destruct H as [Hin Hle]. split.
    + now apply Z.leb_le.
    + now apply In_moved in Hin.
  - intros c Hin Hle.
    destruct (moved_In c (circles s) (heap e) Hin) as (b & Hb).
    exists b. apply filter_In. split; [exact Hb|].
    cbn. now apply Z.leb_le.
  - eexists. reflexivity.
Qed.

(** C1.  Claimed: after a tick every circle is 5 lower, a circle that is then
    above 350 is in [exits] and not in [circles], the others stay in
    [circles], and [exits] is only appended to.  The code loses the circles
    that cross 350: [Tick] picks the new exits among the circles as they were
    before the move.  In the state [main] reaches 70 ticks after the piano note
    came due the circle is at 350; the tick moves it to 355 and filters it out
    of [circles], but at 350 it is not picked for [exits]: after the tick it
    is in neither. *)
Theorem tick_drops_note_without_exit :
  map yPos (circles edgeState) = [350] /\
  exits edgeState = [] /\
  forall e : Env,
    exists s',
      fst (Tick.apply edgeState e) = Ok s' /\
      circles s' = [] /\ exits s' = [].
Proof.
  split; [reflexivity | split; [reflexivity|]].
  intros e. eexists. rewrite Tick_apply_run. cbn [fst].
  split; [reflexivity|]. split; reflexivity.
Qed.

(** ** The key handler, branch by branch *)

Lemma handleKeyPress_hit keyCode state samples e hitCircle :
  find (inHitRange (keyToPositionMapping keyCode)) (circles state)
    = Some hitCircle ->
  instrumentOk samples (note hitCircle) = true ->
  isChild (circle hitCircle) (svg e) = true ->
  exists e',
    handleKeyPress keyCode state samples e =
    (Ok {| gameEnd := gameEnd state; notes := notes state;
           score := score state + 10; time := time state;
           circles :=
             filter (fun c => negb (Nat.eqb (self c) (self hitCircle)))
                    (circles state);
           exits := exits state |}, e') /\
    currentSequence e' = currentSequence e /\ heap e' = heap e.
Proof.
  intros Hfind Hok Hchild. unfold handleKeyPress. rewrite Hfind.
  unfold bind at 1.
  destruct (playSound_some (note hitCircle) samples e Hok)
    as (e1 & -> & Hsvg & Hcur & Hheap).
  unfold bind at 1. unfold removeChild. rewrite Hsvg, Hchild.
  eexists. split; [reflexivity|]. cbn. auto.
Qed.

(** A key press that finds a circle whose note has an inherited instrument
    name throws in [playSound]: the circle stays on the canvas and no state
    is returned. *)
Lemma handleKeyPress_hit_inherited keyCode state samples e hitCircle :
  find (inHitRange (keyToPositionMapping keyCode)) (circles state)
    = Some hitCircle ->
  instrumentOk samples (note hitCircle) = false ->
  handleKeyPress keyCode state samples e = (Throw TypeError, e).
Proof.
  intros Hfind Hbad. unfold handleKeyPress. rewrite Hfind.
  unfold bind at 1. now rewrite (playSound_inherited _ _ _ Hbad).
Qed.

Lemma handleKeyPress_hit_detached keyCode state samples e hitCircle :
  find (inHitRange (keyToPositionMapping keyCode)) (circles state)
    = Some hitCircle ->
  instrumentOk samples (note hitCircle) = true ->
  isChild (circle hitCircle) (svg e) = false ->
  fst (handleKeyPress keyCode state samples e) = Throw NotFoundError.
Proof.
  intros Hfind Hok Hchild. unfold handleKeyPress. rewrite Hfind.
  unfold bind at 1.
  destruct (playSound_some (note hitCircle) samples e Hok)
    as (e1 & -> & Hsvg & Hcur & Hheap).
  unfold bind at 1. unfold removeChild. rewrite Hsvg, Hchild. reflexivity.
Qed.

Lemma handleKeyPress_miss keyCode state samples e randomNote :
  find (inHitRange (keyToPositionMapping keyCode)) (circles state) = None ->
  randomNoteFor (fst (getRandomValue (currentSequence e))) (notes state)
    = Some randomNote ->
  instrumentOk samples randomNote = true ->
  exists e',
    handleKeyPress keyCode state samples e =
    (Ok {| gameEnd := gameEnd state; notes := notes state;
           score := Z.max 0 (score state - 1); time := time state;
           circles := circles state; exits := exits state |}, e') /\
    svg e' = svg e /\
    currentSequence e' = snd (getRandomValue (currentSequence e)).
Proof.
  intros Hfind Hget Hok. unfold handleKeyPress. rewrite Hfind.
  unfold bind at 1. unfold callRandom.
  destruct (getRandomValue (currentSequence e)) as [v cur] eqn:Ev.
  cbn [fst snd] in *. rewrite Hget.
  unfold bind at 1.
  match goal with
  | |- context [playSound (Some randomNote) samples ?e0] =>
      destruct (playSound_some randomNote samples e0 Hok)
        as (e1 & -> & Hsvg & Hcur & Hheap)
  end.
  eexists. split; [reflexivity|]. cbn in *. auto.
Qed.

(** A miss whose random note has an inherited instrument name throws. *)
Lemma handleKeyPress_miss_inherited keyCode state samples e randomNote :
  find (inHitRange (keyToPositionMapping keyCode)) (circles state) = None ->
  randomNoteFor (fst (getRandomValue (currentSequence e))) (notes state)
    = Some randomNote ->
  instrumentOk samples randomNote = false ->
  fst (handleKeyPress keyCode state samples e) = Throw TypeError.
Proof.
  intros Hfind Hget Hbad. unfold handleKeyPress. rewrite Hfind.
  unfold bind at 1. unfold callRandom.
  destruct (getRandomValue (currentSequence e)) as [v cur] eqn:Ev.
  cbn [fst snd] in *. rewrite Hget.
  unfold bind at 1. now rewrite (playSound_inherited _ _ _ Hbad).
Qed.

Lemma handleKeyPress_miss_undefined keyCode state samples e :
  find (inHitRange (keyToPositionMapping keyCode)) (circles state) = None ->
  randomNoteFor (fst (getRandomValue (currentSequence e))) (notes state)
    = None ->
  fst (handleKeyPress keyCode state samples e) = Throw TypeError.
Proof.
  intros Hfind Hget. unfold handleKeyPress. rewrite Hfind.
  unfold bind at 1. unfold callRandom.
  destruct (getRandomValue (currentSequence e)) as [v cur] eqn:Ev.
  cbn [fst snd] in *. rewrite Hget. reflexivity.
Qed.

(** What a returning key press did to the state. *)
Lemma handleKeyPress_returns keyCode state samples e state' e' :
  handleKeyPress keyCode state samples e = (Ok state', e') ->
  notes state' = notes state /\ time state' = time state /\
  gameEnd state' = gameEnd state /\ exits state' = exits state /\
  ((exists hitCircle,
       find (inHitRange (keyToPositionMapping keyCode)) (circles state)
         = Some hitCircle /\
       circles state' =
         filter (fun c => negb (Nat.eqb (self c) (self hitCircle)))
                (circles state) /\
       score state' = score state + 10)
   \/
   (find (inHitRange (keyToPositionMapping keyCode)) (circles state) = None /\
    circles state' = circles state /\
    score state' = Z.max 0 (score state - 1))).
Proof.
  intros H.
  destruct (find (inHitRange (keyToPositionMapping keyCode)) (circles state))
    as [hitCircle|] eqn:Hfind.
  - destruct (instrumentOk samples (note hitCircle)) eqn:Hok.
    2:{ rewrite (handleKeyPress_hit_inherited _ _ _ _ _ Hfind Hok) in H.
        discriminate. }
    destruct (isChild (circle hitCircle) (svg e)) eqn:Hchild.
    + destruct (handleKeyPress_hit keyCode state samples e hitCircle Hfind
                  Hok Hchild) as (e1 & Hrun & _).
      rewrite Hrun in H. injection H as <- <-. cbn.
      repeat split; auto. left. exists hitCircle. auto.
    + pose proof (handleKeyPress_hit_detached keyCode state samples e
                    hitCircle Hfind Hok Hchild) as Hrun.
      rewrite H in Hrun. discriminate.
  - destruct (randomNoteFor (fst (getRandomValue (currentSequence e)))
                            (notes state))
      as [randomNote|] eqn:Hget.
    + destruct (instrumentOk samples randomNote) eqn:Hok.
      * destruct (handleKeyPress_miss keyCode state samples e randomNote
                    Hfind Hget Hok) as (e1 & Hrun & _).
        rewrite Hrun in H. injection H as <- <-. cbn.
        repeat split; auto.
      * pose proof (handleKeyPress_miss_inherited keyCode state samples e
                      randomNote Hfind Hget Hok) as Hrun.
        rewrite H in Hrun. discriminate.
    + pose proof (handleKeyPress_miss_undefined keyCode state samples e
                    Hfind Hget) as Hrun.
      rewrite H in Hrun. discriminate.
Qed.

Lemma handleKeyPress_heap keyCode state samples e :
  heap (snd (handleKeyPress keyCode state samples e)) = heap e.
Proof.
  unfold handleKeyPress.
  destruct (find (inHitRange (keyToPositionMapping keyCode)) (circles state))
    as [hitCircle|].
  - unfold bind at 1.
    destruct (instrumentOk samples (note hitCircle)) eqn:Hok.
    2:{ now rewrite (playSound_inherited _ _ _ Hok). }
    destruct (playSound_some (note hitCircle) samples e Hok)
      as (e1 & -> & _ & _ & Hheap).
    unfold bind, removeChild.
    destruct (isChild (circle hitCircle) (svg e1)); cbn; exact Hheap.
  - unfold bind at 1. unfold callRandom.
    destruct (getRandomValue (currentSequence e)) as [v cur].
    destruct (randomNoteFor v (notes state)) as [randomNote|]; [|reflexivity].
    unfold bind.
    destruct (instrumentOk samples randomNote) eqn:Hok.
    2:{ now rewrite (playSound_inherited _ _ _ Hok). }
    match goal with
    | |- context [playSound (Some randomNote) samples ?e0] =>
        destruct (playSound_some randomNote samples e0 Hok)
          as (e1 & -> & _ & _ & Hheap)
    end.
    cbn in *. exact Hheap.
Qed.

(** ** A hit *)



(** C3.  Claimed: a key press that finds a circle of its lane in
    [[320, 350]] gives a state without that circle and with the score 10
    higher.  For a note whose instrument is named like a member every object
    inherits, here "constructor", the code gives no state.  In the session of
    [main] for the chart of that one note the circle is at 320 after 64
    ticks, in the lane of [KeyH] and on the canvas, and [find] returns it;
    the lookup of the instrument in the dictionary finds the inherited
    member, [playSound] throws a [TypeError] when it calls its
    [triggerAttackRelease], and the key press ends there: the session emits
    no state for it and stops, with the score still 0, the circle still in
    [circles] and on the canvas, and nothing played. *)
Theorem hit_on_inherited_instrument_throws :
  let ready :=
    main constructorChart loadedSamples
         (NoteDue constructorNote :: repeat TickDue 64) in
  let played :=
    main constructorChart loadedSamples
         (NoteDue constructorNote :: repeat TickDue 64 ++ [KeyPress KeyH]) in
  (exists hitCircle,
      find (inHitRange (keyToPositionMapping KeyH)) (circles (lastState ready))
        = Some hitCircle /\
      note hitCircle = constructorNote /\ yPos hitCircle = 320 /\
      isChild (circle hitCircle) (svg (lastEnv ready)) = true) /\
  hasInstrument loadedSamples (instrument_name constructorNote) = false /\
  handleKeyPress KeyH (lastState ready) loadedSamples (lastEnv ready)
    = (Throw TypeError, lastEnv ready) /\
  List.length (fst ready) = 65%nat /\
  List.length (fst played) = 65%nat /\
  lastState played = lastState ready /\
  score (lastState played) = 0 /\
  map yPos (circles (lastState played)) = [320] /\
  lastEnv played = lastEnv ready /\
  audio (lastEnv played) = [].
Proof.
  cbv zeta.
  split; [eexists; repeat match goal with |- _ /\ _ => split end;
          vm_compute; reflexivity|].
  repeat match goal with |- _ /\ _ => split end; vm_compute; reflexivity.
Qed.

(** ** A miss with no note to play *)

(** C2.  Claimed: with the empty chart a key press is a miss that returns a
    valid state, with the score still 0, no sound, and [circles] and [exits]
    unchanged.  The code returns no state: no circle is found, the random
    note [state.notes[0]] is [undefined], and [playSound] throws a [TypeError]
    when it reads its instrument name.  No sound is triggered; the session
    emits no state for the key press and stops. *)
Theorem empty_chart_key_press_throws (keyCode : Key) (samples : Samples) (e : Env) :
  fst (handleKeyPress keyCode (currentState []) samples e) = Throw TypeError /\
  audio (snd (handleKeyPress keyCode (currentState []) samples e)) = audio e /\
  forall seed evs, fst (session seed [] samples (KeyPress keyCode :: evs)) = [].
Proof.
  assert (Hthrow : forall e0,
             handleKeyPress keyCode (currentState []) samples e0 =
             (Throw TypeError,
              {| svg := svg e0;
                 currentSequence := snd (getRandomValue (currentSequence e0));
                 heap := heap e0; audio := audio e0 |})).
  { intros e0. unfold handleKeyPress.
    change (circles (currentState [])) with (@nil CircleObj).
    change (notes (currentState [])) with (@nil NoteObject).
    cbn [find]. unfold bind, callRandom. cbn [getRandomValue fst snd].
    rewrite randomNoteFor_nil. reflexivity. }
  split; [|split].
  - now rewrite Hthrow.
  - now rewrite Hthrow.
  - intros seed evs. unfold session. cbn [mainLoop dispatch].
    now rewrite Hthrow.
Qed.

(** C5.  Claimed: every key press that finds no circle of its lane in
    [[320, 350]] lowers the score by 1, not below 0, and leaves [circles] and
    [exits] unchanged.  In a state with the empty chart and no circle,
    whatever its score, the code applies no penalty: the key press throws
    before a state is built. *)
Theorem miss_without_chart_throws (keyCode : Key) (samples : Samples) (e : Env)
  (ended : bool) (points ticks : Z) (exited : list CircleObj) :
  fst (handleKeyPress keyCode
         {| gameEnd := ended; notes := []; score := points; time := ticks;
            circles := []; exits := exited |} samples e)
  = Throw TypeError.
Proof.
  apply handleKeyPress_miss_undefined; cbn [circles notes find].
  - reflexivity.
  - apply randomNoteFor_nil.
Qed.

(** Whenever the random note exists and [playSound] returns on it, the miss
    is as claimed: the score drops by 1 but not below 0, and [circles],
    [exits] and the rest of the state are unchanged. *)
Lemma miss_penalty_when_note_found keyCode state samples e randomNote :
  find (inHitRange (keyToPositionMapping keyCode)) (circles state) = None ->
  randomNoteFor (fst (getRandomValue (currentSequence e))) (notes state)
    = Some randomNote ->
  instrumentOk samples randomNote = true ->
  exists state' e',
    handleKeyPress keyCode state samples e = (Ok state', e') /\
    score state' = Z.max 0 (score state - 1) /\
    circles state' = circles state /\ exits state' = exits state /\
    notes state' = notes state /\ time state' = time state /\
    gameEnd state' = gameEnd state.
Proof.
  intros Hfind Hget Hok.
  destruct (handleKeyPress_miss keyCode state samples e randomNote Hfind Hget
              Hok) as (e' & Hrun & _).
  eexists. exists e'. split; [exact Hrun|]. cbn. auto 10.
Qed.

(** ** Nothing ever reaches [exits] *)

Lemma no_new_exits (cs : list CircleObj) :
  Forall (fun c => yPos c <= 350) cs ->
  filter (fun c => yPos c >? 350) cs = [].
Proof.
  intros Hpos. apply filter_none. intros c Hc.
  rewrite Forall_forall in Hpos. specialize (Hpos c Hc).
  rewrite Z.gtb_ltb. apply Z.ltb_ge. exact Hpos.
Qed.

Lemma Tick_playable (s s' : State) (e e' : Env) :
  playable s -> Tick.apply s e = (Ok s', e') -> playable s'.
Proof.
  intros [Hpos Hex] H. rewrite Tick_apply_run in H. injection H as <- _.
  split; cbn [circles exits].
  - apply Forall_forall. intros c Hc. apply filter_In in Hc.
    destruct Hc as [_ Hc]. now apply Z.leb_le.
  - rewrite Hex. cbn [app]. now apply no_new_exits.
Qed.

Lemma reduceState_playable (s s' : State) (action : Action) (e e' : Env) :
  playable s ->
  startsAtTop action = true ->
  reduceState s action e = (Ok s', e') ->
  playable s'.
Proof.
  intros Hp Htop H. destruct action as [|n|c|]; cbn in H.
  - now apply (Tick_playable s s' e e').
  - injection H as <- _. destruct Hp as [Hpos Hex].
    split; [now apply Forall_filter | exact Hex].
  - injection H as <- _. destruct Hp as [Hpos Hex].
    split; [|exact Hex]. cbn [circles UpdateCircleState.apply].
    apply Forall_app. split; [exact Hpos|].
    constructor; [|constructor]. cbn in Htop. apply Z.eqb_eq in Htop. lia.
  - injection H as <- _. exact Hp.
Qed.

Lemma handleKeyPress_playable keyCode (s s' : State) samples (e e' : Env) :
  playable s ->
  handleKeyPress keyCode s samples e = (Ok s', e') ->
  playable s'.
Proof.
  intros [Hpos Hex] H.
  destruct (handleKeyPress_returns _ _ _ _ _ _ H)
    as (_ & _ & _ & Hexits & [(hit & _ & Hc & _) | (_ & Hc & _)]);
    (split; [rewrite Hc | now rewrite Hexits]).
  - now apply Forall_filter.
  - exact Hpos.
Qed.

(** C9.  In every state reached from the start state by ticks, by adding a
    circle at [yPos] 0, by removing a circle, by key presses and by ending the
    game, every circle of [circles] is at most at 350 (so [Tick], which looks
    at the positions before the move, finds no new exit) and [exits] is
    empty. *)
Theorem exits_always_empty (notesArray : list NoteObject) (s : State) :
  reachable notesArray s ->
  exits s = [] /\
  Forall (fun c => yPos c <= 350) (circles s) /\
  filter (fun c => yPos c >? 350) (circles s) = [].
Proof.
  intros H.
  assert (Hp : playable s).
  { induction H as [|s action e s' e' _ IH Htop Hrun
                     |s keyCode samples e s' e' _ IH Hrun].
    - split; [constructor | reflexivity].
    - now apply (reduceState_playable s s' action e e').
    - now apply (handleKeyPress_playable keyCode s s' samples e e'). }
  destruct Hp as [Hpos Hex].
  split; [exact Hex | split; [exact Hpos | now apply no_new_exits]].
Qed.

Lemma exits_always_empty_witness :
  reachable pianoChart
            (UpdateCircleState.apply topCircle (currentState pianoChart)) /\
  exits (UpdateCircleState.apply topCircle (currentState pianoChart)) = [].
Proof.
  assert (Hreach : reachable pianoChart
                     (UpdateCircleState.apply topCircle (currentState pianoChart))).
  { apply (reach_action pianoChart (currentState pianoChart)
             (NewUpdateCircleState topCircle) (startEnv pianoChart 42)
             _ (startEnv pianoChart 42));
      [apply reach_start | reflexivity | reflexivity]. }
  split; [exact Hreach | apply (exits_always_empty pianoChart _ Hreach)].
Defined.

(** ** What an emission does to the state *)

(** An emission that returns is a reducer action or a key press. *)
Lemma dispatch_returns samples ev (s s' : State) (e e' : Env) :
  dispatch samples ev s e = (Ok s', e') ->
  s' = s \/
  (exists action e0 e1,
      startsAtTop action = true /\ reduceState s action e0 = (Ok s', e1)) \/
  (exists keyCode, handleKeyPress keyCode s samples e = (Ok s', e')).
Proof.
  destruct ev as [|n|keyCode]; cbn [dispatch]; intros H.
  - right. left. exists NewTick, e, e'. split; [reflexivity | exact H].
  - destruct (user_played n).
    + unfold bind in H. rewrite createCircleObj_run in H.
      injection H as <- _. right. left.
      exists (NewUpdateCircleState
                {| self := S (heap e); note := n;
                   circle := {| node := heap e; cx := determineCxPosition n |};
                   yPos := 0 |}), e, e.
      split; reflexivity.
    + unfold bind in H.
      destruct (playSound (Some n) samples e) as [[[]|x] e1];
        [|discriminate H].
      injection H as <- _. now left.
  - right. right. now exists keyCode.
Qed.

Lemma reduceState_score (s s' : State) (action : Action) (e e' : Env) :
  reduceState s action e = (Ok s', e') -> score s' = score s.
Proof.
  destruct action; cbn; intros H.
  - rewrite Tick_apply_run in H. now injection H as <- _.
  - now injection H as <- _.
  - now injection H as <- _.
  - now injection H as <- _.
Qed.

Lemma dispatch_score samples ev (s s' : State) (e e' : Env) :
  dispatch samples ev s e = (Ok s', e') -> 0 <= score s -> 0 <= score s'.
Proof.
  intros H Hs.
  destruct (dispatch_returns _ _ _ _ _ _ H)
    as [-> | [(action & e0 & e1 & _ & Hr) | (keyCode & Hk)]].
  - exact Hs.
  - now rewrite (reduceState_score _ _ _ _ _ Hr).
  - destruct (handleKeyPress_returns _ _ _ _ _ _ Hk)
      as (_ & _ & _ & _ & [(hit & _ & _ & Hsc) | (_ & _ & Hsc)]);
      rewrite Hsc; lia.
Qed.

Lemma dispatch_reachable notesArray samples ev (s s' : State) (e e' : Env) :
  reachable notesArray s ->
  dispatch samples ev s e = (Ok s', e') ->
  reachable notesArray s'.
Proof.
  intros Hs H.
  destruct (dispatch_returns _ _ _ _ _ _ H)
    as [-> | [(action & e0 & e1 & Htop & Hr) | (keyCode & Hk)]].
  - exact Hs.
  - exact (reach_action notesArray s action e0 s' e1 Hs Htop Hr).
  - exact (reach_key notesArray s keyCode samples e s' e' Hs Hk).
Qed.

Lemma dispatch_distinct samples ev (s s' : State) (e e' : Env) :
  dispatch samples ev s e = (Ok s', e') ->
  distinct s e -> distinct s' e'.
Proof.
  intros H [Hnd Hlt]. destruct ev as [|n|keyCode]; cbn [dispatch] in H.
  - rewrite Tick_apply_run in H. injection H as <- <-.
    split; cbn [circles heap].
    + apply filter_keeps_distinct. rewrite moved_addresses. apply seq_NoDup.
    + apply Forall_forall. intros c Hc. apply filter_In in Hc.
      destruct Hc as [Hc _].
      apply (in_map self) in Hc. rewrite moved_addresses in Hc.
      apply in_seq in Hc. lia.
  - destruct (user_played n).
    + unfold bind in H. rewrite createCircleObj_run in H.
      injection H as <- <-.
      split; cbn [circles heap UpdateCircleState.apply].
      * rewrite map_app. cbn [map self]. apply NoDup_app.
        -- exact Hnd.
        -- constructor; [intros []|constructor].
        -- intros a Ha [<-|[]]. apply in_map_iff in Ha.
           destruct Ha as (c & Hc & Hin).
           rewrite Forall_forall in Hlt. specialize (Hlt c Hin). lia.
      * apply Forall_app. split.
        -- eapply Forall_impl; [|exact Hlt]. cbn. intros c Hc. lia.
        -- constructor; [cbn; lia | constructor].
    + unfold bind in H.
      destruct (instrumentOk samples n) eqn:Hok.
      2:{ rewrite (playSound_inherited _ _ _ Hok) in H. discriminate H. }
      destruct (playSound_some n samples e Hok) as (e1 & Hp & _ & _ & Hheap).
      rewrite Hp in H. injection H as <- <-.
      split; [exact Hnd | now rewrite Hheap].
  - pose proof (handleKeyPress_heap keyCode s samples e) as Hheap.
    rewrite H in Hheap. cbn [snd] in Hheap.
    destruct (handleKeyPress_returns _ _ _ _ _ _ H)
      as (_ & _ & _ & _ & [(hit & _ & Hc & _) | (_ & Hc & _)]);
      unfold distinct; rewrite Hc, Hheap; split; auto.
    + now apply filter_keeps_distinct.
    + now apply Forall_filter.
Qed.

(** ** Invariants of a session *)

(** Every state a session passes through is a reachable state. *)
Lemma inSession_reachable samples notesArray seed state e :
  inSession samples notesArray seed state e -> reachable notesArray state.
Proof.
  intros H. induction H as [|state e ev newState e' _ IH Hd].
  - apply reach_start.
  - exact (dispatch_reachable _ _ _ _ _ _ _ IH Hd).
Qed.

(** In a session the element of every circle of the state is on the canvas
    whenever an emission is handled. *)
Lemma inSession_rendered samples notesArray seed state e :
  inSession samples notesArray seed state e -> rendered state e.
Proof.
  intros H. induction H as [|state e ev newState e' _ _ _].
  - intros c [].
  - destruct (render_run (circles newState) e') as (e2 & Hr & _ & _ & _ & _ & Hin).
    rewrite Hr. exact Hin.
Qed.

(** In a session the circles of the state are distinct objects. *)
Lemma inSession_distinct samples notesArray seed state e :
  inSession samples notesArray seed state e -> distinct state e.
Proof.
  intros H. induction H as [|state e ev newState e' _ IH Hd].
  - split; constructor.
  - destruct (render_run (circles newState) e') as (e2 & Hr & _ & Hheap & _).
    rewrite Hr. cbn [snd].
    destruct (dispatch_distinct _ _ _ _ _ _ Hd IH) as [Hnd Hlt].
    split; [exact Hnd | now rewrite Hheap].
Qed.

(** X19.  So in a session a key press that finds a circle never fails on the
    canvas.  When the instrument of the circle's note is loaded, or has a name
    that is no inherited member of the dictionary, the press returns and takes
    exactly one slot out of [circles]; otherwise it throws a [TypeError] and
    changes nothing. *)
Lemma hit_in_session samples notesArray seed keyCode state e hitCircle :
  inSession samples notesArray seed state e ->
  find (inHitRange (keyToPositionMapping keyCode)) (circles state)
    = Some hitCircle ->
  (instrumentOk samples (note hitCircle) = true ->
   exists state' e' before after,
     handleKeyPress keyCode state samples e = (Ok state', e') /\
     circles state = before ++ hitCircle :: after /\
     circles state' = before ++ after) /\
  (instrumentOk samples (note hitCircle) = false ->
   handleKeyPress keyCode state samples e = (Throw TypeError, e)).
Proof.
  intros Hs Hfind. split; [|now apply handleKeyPress_hit_inherited].
  intros Hok.
  destruct (find_some _ _ Hfind) as [Hin _].
  destruct (handleKeyPress_hit keyCode state samples e hitCircle Hfind Hok
              (inSession_rendered _ _ _ _ _ Hs hitCircle Hin))
    as (e' & Hrun & _).
  destruct (filter_out_unique hitCircle (circles state) Hin
              (proj1 (inSession_distinct _ _ _ _ _ Hs)))
    as (before & after & Hsplit & Hfilter).
  eexists. exists e', before, after. split; [exact Hrun|].
  split; [exact Hsplit | exact Hfilter].
Qed.

(** ** The score floor *)

(** No reachable state has a negative score, whatever the environments the
    actions and key presses ran in. *)
Lemma reachable_score (notesArray : list NoteObject) (s : State) :
  reachable notesArray s -> 0 <= score s.
Proof.
  intros H. induction H as [|s action e s' e' _ IH _ Hrun
                             |s keyCode samples e s' e' _ IH Hrun].
  - cbn. lia.
  - now rewrite (reduceState_score _ _ _ _ _ Hrun).
  - destruct (handleKeyPress_returns _ _ _ _ _ _ Hrun)
      as (_ & _ & _ & _ & [(hit & _ & _ & Hsc) | (_ & _ & Hsc)]);
      rewrite Hsc; lia.
Qed.

Lemma mainLoop_score samples evs :
  forall state e,
    0 <= score state ->
    Forall (fun s => 0 <= score s) (fst (mainLoop samples evs state e)) /\
    0 <= score (lastState (mainLoop samples evs state e)).
Proof.
  unfold lastState.
  induction evs as [|ev evs IH]; intros state e Hs; cbn [mainLoop].
  - split; [constructor | exact Hs].
  - destruct (dispatch samples ev state e) as [[newState|x] e'] eqn:Hd.
    + pose proof (dispatch_score _ _ _ _ _ _ Hd Hs) as Hnew.
      destruct (gameEnd newState).
      * cbn. split; [constructor; [exact Hnew | constructor] | exact Hnew].
      * specialize (IH newState (snd (render (circles newState) e')) Hnew).
        destruct (mainLoop samples evs newState
                    (snd (render (circles newState) e'))) as [emitted final].
        cbn [fst snd] in *. destruct IH as [IH1 IH2].
        split; [constructor; assumption | exact IH2].
    + cbn. split; [constructor | exact Hs].
Qed.

(** C4.  Whatever events a session is fed (ticks, key presses, chart notes
    coming due), for every chart and seed, every state it emits and the state
    it ends in have a score of at least 0.  The start state of the session for
    the empty chart is [initialState]. *)
Theorem score_never_negative (seed : Z) (notesArray : list NoteObject)
  (samples : Samples) (evs : list Event) :
  Forall (fun s => 0 <= score s) (fst (session seed notesArray samples evs)) /\
  0 <= score (lastState (session seed notesArray samples evs)) /\
  currentState [] = initialState.
Proof.
  unfold session.
  destruct (mainLoop_score samples evs (currentState notesArray)
              (startEnv notesArray seed)) as [H1 H2]; [cbn; lia|].
  repeat split; assumption || reflexivity.
Qed.

(** ** Replays *)

Lemma exec_deterministic samples state e evs s1 e1 s2 e2 :
  exec samples state e evs s1 e1 ->
  exec samples state e evs s2 e2 ->
  s1 = s2 /\ e1 = e2.
Proof.
  intros H1. revert s2 e2.
  induction H1 as [state e
                  |state e ev evs x e' Hd
                  |state e ev evs newState e' Hd Hend
                  |state e ev evs newState e' final e_final Hd Hend _ IH];
    intros s2 e2 H2; inversion H2; subst;
    repeat match goal with
           | Ha : dispatch ?sm ?ev0 ?st ?e0 = _,
             Hb : dispatch ?sm ?ev0 ?st ?e0 = _ |- _ =>
               rewrite Ha in Hb; inversion Hb; subst; clear Hb
           end;
    try congruence; auto.
Qed.

(** The loop of [main] is a run of the relation: every list of events has an
    outcome. *)
Lemma mainLoop_exec samples evs :
  forall state e,
    exec samples state e evs
         (fst (snd (mainLoop samples evs state e)))
         (snd (snd (mainLoop samples evs state e))).
Proof.
  induction evs as [|ev evs IH]; intros state e; cbn [mainLoop].
  - constructor.
  - destruct (dispatch samples ev state e) as [[newState|x] e'] eqn:Hd.
    + destruct (gameEnd newState) eqn:Hend.
      * cbn. now apply exec_ended.
      * specialize (IH newState (snd (render (circles newState) e'))).
        destruct (mainLoop samples evs newState
                    (snd (render (circles newState) e'))) as [emitted final].
        cbn [fst snd] in *. now apply exec_emit with newState e'.
    + cbn. now apply exec_error with x.
Qed.

(** C6.  Two runs of the event loop from the same chart, with the generator
    at the same seed, fed the same events in the same order, end in the same
    state and leave the same environment behind (the state of the generator
    included); in particular [score] and [time] agree, and they are the ones
    the loop of [main] computes. *)
Theorem replay_deterministic samples notesArray seed evs s1 e1 s2 e2 :
  exec samples (currentState notesArray) (startEnv notesArray seed) evs s1 e1 ->
  exec samples (currentState notesArray) (startEnv notesArray seed) evs s2 e2 ->
  s1 = s2 /\ e1 = e2 /\
  score s1 = score s2 /\ time s1 = time s2 /\
  currentSequence e1 = currentSequence e2 /\
  s1 = lastState (session seed notesArray samples evs).
Proof.
  intros H1 H2.
  destruct (exec_deterministic _ _ _ _ _ _ _ _ H1 H2) as [-> ->].
  repeat split; try reflexivity.
  pose proof (mainLoop_exec samples evs (currentState notesArray)
                (startEnv notesArray seed)) as H3.
  now destruct (exec_deterministic _ _ _ _ _ _ _ _ H2 H3) as [-> _].
Qed.

Lemma replay_deterministic_witness :
  exec loadedSamples (currentState pianoChart) (startEnv pianoChart 42)
       shortSession
       (lastState (main pianoChart loadedSamples shortSession))
       (snd (snd (main pianoChart loadedSamples shortSession))) /\
  score (lastState (main pianoChart loadedSamples shortSession))
    = score (lastState (main pianoChart loadedSamples shortSession)).
Proof.
  assert (Hrun : exec loadedSamples (currentState pianoChart)
                      (startEnv pianoChart 42) shortSession
                      (lastState (main pianoChart loadedSamples shortSession))
                      (snd (snd (main pianoChart loadedSamples shortSession)))).
  { unfold shortSession.
    eapply exec_emit; [vm_compute; reflexivity | reflexivity |].
    eapply exec_emit; [vm_compute; reflexivity | reflexivity |].
    eapply exec_emit; [vm_compute; reflexivity | reflexivity |].
    apply exec_done. }
  split; [exact Hrun|].
  apply (replay_deterministic loadedSamples pianoChart 42 shortSession
           _ _ _ _ Hrun Hrun).
Defined.

(** ** The single-note scenario *)

(** A session whose first events all emitted a state goes on with the
    remaining events from where it is. *)
Lemma mainLoop_app samples evs1 evs2 :
  forall state e emitted s1 e1,
    mainLoop samples evs1 state e = (emitted, (s1, e1)) ->
    List.length emitted = List.length evs1 ->
    gameEnd s1 = false ->
    mainLoop samples (evs1 ++ evs2) state e =
    (emitted ++ fst (mainLoop samples evs2 s1 e1),
     snd (mainLoop samples evs2 s1 e1)).
Proof.
  induction evs1 as [|ev evs1 IH]; intros state e emitted s1 e1 Hrun Hlen Hend.
  - cbn in Hrun. inversion Hrun; subst. cbn [app].
    now destruct (mainLoop samples evs2 s1 e1).
  - cbn [mainLoop app] in *.
    destruct (dispatch samples ev state e) as [[newState|x] e'].
    + destruct (gameEnd newState) eqn:Hnew.
      * inversion Hrun; subst. congruence.
      * destruct (mainLoop samples evs1 newState
                    (snd (render (circles newState) e'))) as [tr w] eqn:Hrest.
        inversion Hrun; subst. cbn [List.length] in Hlen.
        rewrite (IH _ _ tr s1 e1 Hrest ltac:(lia) Hend).
        reflexivity.
    + inversion Hrun; subst. discriminate.
Qed.

(** The loop on a single key press that finds a circle. *)
Lemma mainLoop_hit samples keyCode state e hitCircle :
  find (inHitRange (keyToPositionMapping keyCode)) (circles state)
    = Some hitCircle ->
  instrumentOk samples (note hitCircle) = true ->
  isChild (circle hitCircle) (svg e) = true ->
  gameEnd state = false ->
  exists newState final,
    mainLoop samples [KeyPress keyCode] state e = ([newState], (newState, final)) /\
    score newState = score state + 10 /\
    circles newState =
      filter (fun c => negb (Nat.eqb (self c) (self hitCircle))) (circles state).
Proof.
  intros Hfind Hok Hchild Hend.
  destruct (handleKeyPress_hit keyCode state samples e hitCircle Hfind Hok
              Hchild) as (e' & Hkey & _).
  cbn [mainLoop dispatch]. rewrite Hkey. cbn [gameEnd circles]. rewrite Hend.
  eexists. eexists. split; [reflexivity|]. split; reflexivity.
Qed.

(** C7.  For the chart of the one piano note (pitch 60), whatever instruments
    are loaded: when the note comes due, [circles] holds one circle at [yPos]
    0; 64 ticks later it is at 320; the lane of pitch 60 is that of [KeyH],
    and pressing [KeyH] then is a hit: all 66 events emitted a state, the
    score is 10 and [circles] is empty. *)
Theorem single_note_scenario (samples : Samples) :
  let activated := main pianoChart samples [NoteDue pianoNote] in
  let ready :=
    main pianoChart samples (NoteDue pianoNote :: repeat TickDue 64) in
  let played :=
    main pianoChart samples
         (NoteDue pianoNote :: repeat TickDue 64 ++ [KeyPress KeyH]) in
  map yPos (circles (lastState activated)) = [0] /\
  map note (circles (lastState activated)) = [pianoNote] /\
  map yPos (circles (lastState ready)) = [320] /\
  map note (circles (lastState ready)) = [pianoNote] /\
  320 = 64 * 5 /\
  Z.rem (pitch pianoNote) 4 = 0 /\
  determineCxPosition pianoNote = keyToPositionMapping KeyH /\
  List.length (fst played) = 66%nat /\
  score (lastState played) = 10 /\
  circles (lastState played) = [].
Proof.
  cbv zeta.
  assert (Hready :
            mainLoop samples (NoteDue pianoNote :: repeat TickDue 64)
                     (currentState pianoChart) (startEnv pianoChart 42)
            = (fst readySession, (readyState, readyEnv)))
    by (vm_compute; reflexivity).
  assert (Hfind : find (inHitRange (keyToPositionMapping KeyH)) (circles readyState)
                  = Some readyCircle) by (vm_compute; reflexivity).
  assert (Hchild : isChild (circle readyCircle) (svg readyEnv) = true)
    by (vm_compute; reflexivity).
  assert (Hend : gameEnd readyState = false) by (vm_compute; reflexivity).
  assert (Hlen : List.length (fst readySession)
                 = List.length (NoteDue pianoNote :: repeat TickDue 64))
    by (vm_compute; reflexivity).
  assert (Hok : instrumentOk samples (note readyCircle) = true)
    by (now apply instrumentOk_not_inherited).
  destruct (mainLoop_hit samples KeyH readyState readyEnv readyCircle
              Hfind Hok Hchild Hend)
    as (newState & final & Hkey & Hscore & Hcircles).
  pose proof (mainLoop_app samples (NoteDue pianoNote :: repeat TickDue 64)
                [KeyPress KeyH] _ _ _ _ _ Hready Hlen Hend) as Hplayed.
  rewrite Hkey in Hplayed. cbn [fst snd] in Hplayed.
  split; [vm_compute; reflexivity|].
  split; [vm_compute; reflexivity|].
  split; [vm_compute; reflexivity|].
  split; [vm_compute; reflexivity|].
  split; [reflexivity|].
  split; [reflexivity|].
  split; [reflexivity|].
  unfold main, session, lastState.
  change (NoteDue pianoNote :: repeat TickDue 64 ++ [KeyPress KeyH])
    with ((NoteDue pianoNote :: repeat TickDue 64) ++ [KeyPress KeyH]).
  rewrite Hplayed. cbn [fst snd].
  split; [|split].
  - rewrite length_app, Hlen. reflexivity.
  - rewrite Hscore. vm_compute. reflexivity.
  - rewrite Hcircles. vm_compute. reflexivity.
Qed.

(** * Further properties *)

(** ** Lanes and colours *)

Lemma rem4_cases (p : Z) :
  Z.rem p 4 = -3 \/ Z.rem p 4 = -2 \/ Z.rem p 4 = -1 \/ Z.rem p 4 = 0 \/
  Z.rem p 4 = 1 \/ Z.rem p 4 = 2 \/ Z.rem p 4 = 3.
Proof.
  destruct (Z.le_gt_cases 0 p) as [Hp|Hp].
  - pose proof (Z.rem_bound_pos p 4 Hp ltac:(lia)). lia.
  - pose proof (Z.rem_bound_pos (- p) 4 ltac:(lia) ltac:(lia)) as Hb.
    rewrite Z.rem_opp_l in Hb by lia. lia.
Qed.

Ltac settle_iff :=
  split; let E := fresh "E" in intros E;
  first [reflexivity | discriminate E | lia].

(** X1.  The lane of a circle is decided by [pitch % 4]: remainder 0 is the
    lane of [KeyH], 1 of [KeyJ], 2 of [KeyK], 3 of [KeyL].  A negative
    remainder (a negative pitch that is no multiple of 4) gives the attribute
    text "undefined", which is the lane of no key: such a circle is in the hit
    range of no key press, wherever it is. *)
Theorem lane_of_pitch (note : NoteObject) :
  (determineCxPosition note = keyToPositionMapping KeyH <-> Z.rem (pitch note) 4 = 0) /\
  (determineCxPosition note = keyToPositionMapping KeyJ <-> Z.rem (pitch note) 4 = 1) /\
  (determineCxPosition note = keyToPositionMapping KeyK <-> Z.rem (pitch note) 4 = 2) /\
  (determineCxPosition note = keyToPositionMapping KeyL <-> Z.rem (pitch note) 4 = 3) /\
  (Z.rem (pitch note) 4 < 0 ->
   determineCxPosition note = "undefined"%string /\
   forall (keyCode : Key) (c : CircleObj),
     cx (circle c) = determineCxPosition note ->
     inHitRange (keyToPositionMapping keyCode) c = false).
Proof.
  unfold determineCxPosition.
  destruct (rem4_cases (pitch note)) as [H|[H|[H|[H|[H|[H|H]]]]]];
    rewrite H; cbn;
    (split; [settle_iff|]); (split; [settle_iff|]);
    (split; [settle_iff|]); (split; [settle_iff|]);
    intros Hneg; try lia;
    (split; [reflexivity|]);
    intros keyCode c Hc; unfold inHitRange; rewrite Hc;
    destruct keyCode; reflexivity.
Qed.

(** X2.  The colour and the lane of a circle agree: green is the lane at 20
    percent, red at 40, blue at 60, yellow at 80.  The colour "error" is
    reached exactly for a negative remainder of the pitch, where the lane is
    "undefined"; for a pitch of at least 0 it is never reached. *)
Theorem colour_matches_lane (note : NoteObject) :
  (determineColour note = "green"%string <-> determineCxPosition note = "20%"%string) /\
  (determineColour note = "red"%string <-> determineCxPosition note = "40%"%string) /\
  (determineColour note = "blue"%string <-> determineCxPosition note = "60%"%string) /\
  (determineColour note = "yellow"%string <-> determineCxPosition note = "80%"%string) /\
  (determineColour note = "error"%string <-> Z.rem (pitch note) 4 < 0) /\
  (determineColour note = "error"%string <->
   determineCxPosition note = "undefined"%string) /\
  (0 <= pitch note -> determineColour note <> "error"%string).
Proof.
  assert (Hpos : 0 <= pitch note -> 0 <= Z.rem (pitch note) 4).
  { intros Hp. pose proof (Z.rem_bound_pos (pitch note) 4 Hp ltac:(lia)). lia. }
  unfold determineColour, determineCxPosition.
  destruct (rem4_cases (pitch note)) as [H|[H|[H|[H|[H|[H|H]]]]]];
    rewrite H in *; cbn;
    (split; [settle_iff|]); (split; [settle_iff|]);
    (split; [settle_iff|]); (split; [settle_iff|]);
    (split; [settle_iff|]); (split; [settle_iff|]);
    intros Hp; specialize (Hpos Hp); first [lia | discriminate].
Qed.

(** ** [RemoveCircle] and [UpdateCircleState] *)

Lemma filter_twice {A : Type} (f g : A -> bool) (l : list A) :
  filter f (filter g l) = filter (fun x => g x && f x) l.
Proof.
  induction l as [|x l IH]; [reflexivity|].
  cbn [filter]. destruct (g x); cbn [filter andb]; [|exact IH].
  destruct (f x); now rewrite IH.
Qed.

(** X3.  [RemoveCircle] takes out of [circles] every circle whose note is the
    given note object, and only those; the circles kept stay in their order,
    and nothing else of the state changes.  Removing twice is removing once,
    and removals of two notes can be swapped. *)
Theorem remove_circle_spec (n : NoteObject) (s : State) :
  (forall c, In c (circles (RemoveCircle.apply n s)) <->
             In c (circles s) /\ note_addr (note c) <> note_addr n) /\
  (exists kept, circles (RemoveCircle.apply n s) = filter kept (circles s)) /\
  RemoveCircle.apply n (RemoveCircle.apply n s) = RemoveCircle.apply n s /\
  (forall n2,
      RemoveCircle.apply n (RemoveCircle.apply n2 s)
      = RemoveCircle.apply n2 (RemoveCircle.apply n s)) /\
  score (RemoveCircle.apply n s) = score s /\
  time (RemoveCircle.apply n s) = time s /\
  notes (RemoveCircle.apply n s) = notes s /\
  exits (RemoveCircle.apply n s) = exits s /\
  gameEnd (RemoveCircle.apply n s) = gameEnd s.
Proof.
  split; [|split; [|split; [|split]]].
  - intros c. cbn [RemoveCircle.apply circles].
    rewrite filter_In, negb_true_iff, Nat.eqb_neq. reflexivity.
  - eexists. reflexivity.
  - unfold RemoveCircle.apply. cbn [circles gameEnd notes score time exits].
    f_equal. rewrite filter_twice. apply filter_ext. intros c.
    now destruct (negb (Nat.eqb (note_addr (note c)) (note_addr n))).
  - intros n2. unfold RemoveCircle.apply.
    cbn [circles gameEnd notes score time exits].
    f_equal. rewrite !filter_twice. apply filter_ext. intros c.
    apply andb_comm.
  - repeat split.
Qed.

(** X4.  Adding a circle and then removing the circles of its note gives the
    state back, when no circle of the state was of that note. *)
Theorem remove_after_update (c : CircleObj) (s : State) :
  (forall c0, In c0 (circles s) -> note_addr (note c0) <> note_addr (note c)) ->
  RemoveCircle.apply (note c) (UpdateCircleState.apply c s) = s.
Proof.
  intros Hother. destruct s as [ended chart points ticks cs ex].
  unfold RemoveCircle.apply, UpdateCircleState.apply.
  cbn [circles gameEnd notes score time exits] in *.
  f_equal. rewrite filter_app. cbn [filter]. rewrite Nat.eqb_refl. cbn [negb].
  rewrite app_nil_r. apply filter_keeps_all.
  intros c0 Hc0. apply negb_true_iff, Nat.eqb_neq. now apply Hother.
Qed.

Lemma remove_after_update_witness :
  (forall c0, In c0 (circles (currentState pianoChart)) ->
              note_addr (note c0) <> note_addr (note topCircle)) /\
  RemoveCircle.apply (note topCircle)
                     (UpdateCircleState.apply topCircle (currentState pianoChart))
  = currentState pianoChart.
Proof.
  assert (H : forall c0, In c0 (circles (currentState pianoChart)) ->
                         note_addr (note c0) <> note_addr (note topCircle))
    by (intros c0 []).
  split; [exact H | apply (remove_after_update topCircle _ H)].
Defined.

(** ** Invariants of the states of a session *)

(** What an emission that returns did, by its kind. *)
Lemma dispatch_cases samples ev (s s' : State) (e e' : Env) :
  dispatch samples ev s e = (Ok s', e') ->
  match ev with
  | TickDue => Tick.apply s e = (Ok s', e')
  | NoteDue n =>
      if user_played n then
        s' = UpdateCircleState.apply
               {| self := S (heap e); note := n;
                  circle := {| node := heap e; cx := determineCxPosition n |};
                  yPos := 0 |} s
      else s' = s
  | KeyPress keyCode => handleKeyPress keyCode s samples e = (Ok s', e')
  end.
Proof.
  destruct ev as [|n|keyCode]; cbn [dispatch]; intros H; try exact H.
  destruct (user_played n).
  - unfold bind in H. rewrite createCircleObj_run in H. now injection H as <- _.
  - unfold bind in H.
    destruct (playSound (Some n) samples e) as [[[]|x] e1];
      [|discriminate H].
    now injection H as <- _.
Qed.

(** A property of states that every returning emission keeps holds of every
    state a loop emits and of the state it stops in. *)
Lemma mainLoop_invariant samples (P : State -> Prop) :
  (forall ev s e s' e',
      P s -> dispatch samples ev s e = (Ok s', e') -> P s') ->
  forall evs state e,
    P state ->
    Forall P (fst (mainLoop samples evs state e)) /\
    P (lastState (mainLoop samples evs state e)).
Proof.
  intros Hstep. unfold lastState.
  induction evs as [|ev evs IH]; intros state e Hs; cbn [mainLoop].
  - split; [constructor | exact Hs].
  - destruct (dispatch samples ev state e) as [[newState|x] e'] eqn:Hd.
    + pose proof (Hstep _ _ _ _ _ Hs Hd) as Hnew.
      destruct (gameEnd newState).
      * cbn. split; [constructor; [exact Hnew | constructor] | exact Hnew].
      * specialize (IH newState (snd (render (circles newState) e')) Hnew).
        destruct (mainLoop samples evs newState
                    (snd (render (circles newState) e'))) as [emitted final].
        cbn [fst snd] in *. destruct IH as [IH1 IH2].
        split; [constructor; assumption | exact IH2].
    + cbn. split; [constructor | exact Hs].
Qed.

(** X5.  A session never ends the game and never changes the chart: every
    state it emits, and the state it stops in, has [gameEnd] false and the
    chart it was started with.  (No emission of [main] is a [GameEnd].) *)
Theorem session_never_ends (seed : Z) (notesArray : list NoteObject)
  (samples : Samples) (evs : list Event) :
  Forall (fun s => gameEnd s = false /\ notes s = notesArray)
         (fst (session seed notesArray samples evs)) /\
  gameEnd (lastState (session seed notesArray samples evs)) = false /\
  notes (lastState (session seed notesArray samples evs)) = notesArray.
Proof.
  unfold session.
  destruct (mainLoop_invariant samples
              (fun s => gameEnd s = false /\ notes s = notesArray))
    with (evs := evs) (state := currentState notesArray)
         (e := startEnv notesArray seed) as [Hall [Hend Hnotes]].
  - intros ev s e s' e' [Hg Hn] Hd. apply dispatch_cases in Hd.
    destruct ev as [|n|keyCode].
    + rewrite Tick_apply_run in Hd. injection Hd as <- _. now split.
    + destruct (user_played n); subst s'; now split.
    + destruct (handleKeyPress_returns _ _ _ _ _ _ Hd) as (Hn' & _ & Hg' & _).
      split; congruence.
  - now split.
  - auto.
Qed.

Lemma wellPlaced_moved (a : loc) (c : CircleObj) :
  wellPlaced c -> yPos c + 5 <= 350 -> wellPlaced (Tick.moved a c).
Proof.
  intros (Hu & Hcx & Hpos & Hdiv) Hle. unfold wellPlaced. cbn.
  repeat split; try assumption; try lia.
  apply Z.divide_add_r; [exact Hdiv | apply Z.divide_refl].
Qed.

(** X6.  In every state of a session every circle belongs to a note played by
    the user, sits in the lane of its note's pitch, and is at a multiple of 5
    between 0 and 350. *)
Theorem session_circles_well_placed (seed : Z) (notesArray : list NoteObject)
  (samples : Samples) (evs : list Event) :
  Forall (fun s => Forall wellPlaced (circles s))
         (fst (session seed notesArray samples evs)) /\
  Forall wellPlaced (circles (lastState (session seed notesArray samples evs))).
Proof.
  unfold session. apply mainLoop_invariant; [|constructor].
  intros ev s e s' e' Hs Hd. apply dispatch_cases in Hd.
  destruct ev as [|n|keyCode].
  - rewrite Tick_apply_run in Hd. injection Hd as <- _. cbn [circles].
    apply Forall_forall. intros c' Hc'. apply filter_In in Hc'.
    destruct Hc' as [Hin Hle]. apply Z.leb_le in Hle.
    apply in_map_iff in Hin. destruct Hin as ([a c] & <- & Hin).
    apply in_combine_r in Hin. cbn [fst snd] in *.
    rewrite Forall_forall in Hs. apply wellPlaced_moved; [now apply Hs|].
    exact Hle.
  - destruct (user_played n) eqn:Hu; subst s'; [|exact Hs].
    cbn [circles UpdateCircleState.apply]. apply Forall_app. split; [exact Hs|].
    constructor; [|constructor]. unfold wellPlaced. cbn.
    repeat split; try assumption; try lia. apply Z.divide_0_r.
  - destruct (handleKeyPress_returns _ _ _ _ _ _ Hd)
      as (_ & _ & _ & _ & [(hit & _ & Hc & _) | (_ & Hc & _)]); rewrite Hc.
    + now apply Forall_filter.
    + exact Hs.
Qed.

(** ** The score a session can reach *)

Lemma countOf_cons (kind : Event -> bool) (ev : Event) (evs : list Event) :
  countOf kind (ev :: evs)
  = ((if kind ev then 1 else 0) + countOf kind evs)%nat.
Proof. unfold countOf. cbn [filter]. now destruct (kind ev). Qed.

Lemma filter_length_le {A : Type} (f : A -> bool) (l : list A) :
  (List.length (filter f l) <= List.length l)%nat.
Proof.
  induction l as [|x l IH]; [constructor|].
  cbn [filter]. destruct (f x); cbn [List.length]; lia.
Qed.

Lemma filter_drops_one {A : Type} (f : A -> bool) (x : A) (l : list A) :
  In x l -> f x = false -> (List.length (filter f l) < List.length l)%nat.
Proof.
  induction l as [|y l IH]; intros Hin Hx; [destruct Hin|].
  cbn [filter List.length]. destruct Hin as [->|Hin].
  - rewrite Hx. pose proof (filter_length_le f l). lia.
  - specialize (IH Hin Hx). destruct (f y); cbn [List.length]; lia.
Qed.

(** An emission raises the potential only when it is a user note coming due,
    and then by 10. *)
Lemma dispatch_potential samples ev (s s' : State) (e e' : Env) :
  dispatch samples ev s e = (Ok s', e') ->
  0 <= score s ->
  potential s' <= potential s + 10 * Z.of_nat (if isUserNote ev then 1 else 0).
Proof.
  intros Hd Hs. apply dispatch_cases in Hd. unfold potential.
  destruct ev as [|n|keyCode]; cbn [isUserNote].
  - rewrite Tick_apply_run in Hd. injection Hd as <- _. cbn [score circles].
    match goal with
    | |- context [List.length (filter ?f ?l)] =>
        pose proof (filter_length_le f l) as Hlen
    end.
    rewrite length_map, length_combine, length_seq, Nat.min_id in Hlen. lia.
  - destruct (user_played n); subst s'; [|lia].
    cbn [score circles UpdateCircleState.apply]. rewrite length_app.
    cbn [List.length]. lia.
  - destruct (handleKeyPress_returns _ _ _ _ _ _ Hd)
      as (_ & _ & _ & _ & [(hit & Hfind & Hc & Hsc) | (_ & Hc & Hsc)]);
      rewrite Hc, Hsc.
    + destruct (find_some _ _ Hfind) as [Hin _].
      pose proof (filter_drops_one
                    (fun c => negb (Nat.eqb (self c) (self hit)))
                    hit (circles s) Hin) as Hlt.
      cbn beta in Hlt. rewrite Nat.eqb_refl in Hlt. specialize (Hlt eq_refl).
      lia.
    + lia.
Qed.

Lemma mainLoop_potential samples evs :
  forall state e,
    0 <= score state ->
    Forall (fun s => potential s
                     <= potential state + 10 * Z.of_nat (countOf isUserNote evs))
           (fst (mainLoop samples evs state e)) /\
    potential (lastState (mainLoop samples evs state e))
    <= potential state + 10 * Z.of_nat (countOf isUserNote evs).
Proof.
  unfold lastState.
  induction evs as [|ev evs IH]; intros state e Hs; cbn [mainLoop].
  - split; [constructor | cbn; lia].
  - rewrite countOf_cons.
    destruct (dispatch samples ev state e) as [[newState|x] e'] eqn:Hd.
    + pose proof (dispatch_potential _ _ _ _ _ _ Hd Hs) as Hnew.
      pose proof (dispatch_score _ _ _ _ _ _ Hd Hs) as Hscore.
      destruct (gameEnd newState).
      * cbn [fst snd]. split; [constructor; [|constructor]|]; lia.
      * specialize (IH newState (snd (render (circles newState) e')) Hscore).
        destruct (mainLoop samples evs newState
                    (snd (render (circles newState) e'))) as [emitted final].
        cbn [fst snd] in *. destruct IH as [IH1 IH2].
        split; [constructor; [lia|] | lia].
        eapply Forall_impl; [|exact IH1]. cbn beta. intros st Hst. lia.
    + cbn [fst snd]. split; [constructor | lia].
Qed.

(** X7.  A session scores at most 10 for every user note that came due: in
    every state it emits and in the state it stops in, the score plus 10 for
    every circle still in play is at most 10 times the number of user notes
    among the events. *)
Theorem score_bounded_by_activations (seed : Z) (notesArray : list NoteObject)
  (samples : Samples) (evs : list Event) :
  Forall (fun s => score s + 10 * Z.of_nat (List.length (circles s))
                   <= 10 * Z.of_nat (countOf isUserNote evs))
         (fst (session seed notesArray samples evs)) /\
  score (lastState (session seed notesArray samples evs))
  + 10 * Z.of_nat (List.length (circles (lastState (session seed notesArray samples evs))))
  <= 10 * Z.of_nat (countOf isUserNote evs) /\
  score (lastState (session seed notesArray samples evs))
  <= 10 * Z.of_nat (countOf isUserNote evs).
Proof.
  unfold session.
  destruct (mainLoop_potential samples evs (currentState notesArray)
              (startEnv notesArray seed)) as [Hall Hlast]; [cbn; lia|].
  unfold potential in *. cbn [currentState initialState score circles List.length] in *.
  split; [|split].
  - eapply Forall_impl; [|exact Hall]. cbn beta. intros st Hst. lia.
  - lia.
  - lia.
Qed.

(** ** Sounds and the generator *)

(** X8.  What a key press does to the sampler and to the generator, whether
    it returns or throws.  A press that finds a circle triggers the note of
    that circle, if its instrument is loaded, and leaves the generator alone.
    A press that finds none advances the generator by one step and triggers
    the chart note at the random index drawn from the new value, if there is
    one and its instrument is loaded. *)
Theorem key_press_effects (keyCode : Key) (state : State) (samples : Samples)
  (e : Env) :
  match find (inHitRange (keyToPositionMapping keyCode)) (circles state) with
  | Some hitCircle =>
      currentSequence (snd (handleKeyPress keyCode state samples e))
      = currentSequence e /\
      audio (snd (handleKeyPress keyCode state samples e))
      = (if hasInstrument samples (instrument_name (note hitCircle))
         then audio e ++ [note hitCircle] else audio e)
  | None =>
      currentSequence (snd (handleKeyPress keyCode state samples e))
      = next (currentSequence e) /\
      audio (snd (handleKeyPress keyCode state samples e))
      = match randomNoteFor (RNG.scale (value (next (currentSequence e))))
                            (notes state) with
        | Some randomNote =>
            if hasInstrument samples (instrument_name randomNote)
            then audio e ++ [randomNote] else audio e
        | None => audio e
        end
  end.
Proof.
  unfold handleKeyPress.
  destruct (find (inHitRange (keyToPositionMapping keyCode)) (circles state))
    as [hitCircle|].
  - unfold bind, playSound, removeChild, triggerAttackRelease, ret, throw.
    destruct (hasInstrument samples (instrument_name (note hitCircle)));
      [|destruct (isInherited (instrument_name (note hitCircle)))];
      cbn [svg]; try destruct (isChild (circle hitCircle) (svg e));
      cbn; split; reflexivity.
  - unfold bind, callRandom. cbn [getRandomValue].
    destruct (randomNoteFor (RNG.scale (value (next (currentSequence e))))
                            (notes state)) as [randomNote|].
    + unfold playSound, triggerAttackRelease, ret, throw.
      destruct (hasInstrument samples (instrument_name randomNote));
        [|destruct (isInherited (instrument_name randomNote))];
        cbn; split; reflexivity.
    + cbn. split; reflexivity.
Qed.

(** What any emission does to the sampler and to the generator. *)
Lemma dispatch_effects samples ev (s : State) (e : Env) :
  (currentSequence (snd (dispatch samples ev s e)) = currentSequence e \/
   isKeyPress ev = true /\
   currentSequence (snd (dispatch samples ev s e)) = next (currentSequence e)) /\
  (audio (snd (dispatch samples ev s e)) = audio e \/
   (isKeyPress ev = true \/ isBackgroundNote ev = true) /\
   exists n, hasInstrument samples (instrument_name n) = true /\
             audio (snd (dispatch samples ev s e)) = audio e ++ [n]).
Proof.
  destruct ev as [|n|keyCode]; cbn [dispatch isKeyPress isBackgroundNote].
  - rewrite Tick_apply_run. cbn. auto.
  - destruct (user_played n); cbn [negb].
    + unfold bind. rewrite createCircleObj_run. cbn. auto.
    + unfold bind, playSound, triggerAttackRelease, ret, throw.
      destruct (hasInstrument samples (instrument_name n)) eqn:Hi;
        [|destruct (isInherited (instrument_name n))];
        cbn; (split; [auto|]); auto.
      right. split; [auto|]. now exists n.
  - unfold handleKeyPress.
    destruct (find (inHitRange (keyToPositionMapping keyCode)) (circles s))
      as [hitCircle|].
    + unfold bind, playSound, removeChild, triggerAttackRelease, ret, throw.
      destruct (hasInstrument samples (instrument_name (note hitCircle))) eqn:Hi;
        [|destruct (isInherited (instrument_name (note hitCircle)))];
        cbn [svg]; try destruct (isChild (circle hitCircle) (svg e));
        cbn; (split; [auto|]); auto;
        right; (split; [auto|]); now exists (note hitCircle).
    + unfold bind, callRandom. cbn [getRandomValue].
      destruct (randomNoteFor (RNG.scale (value (next (currentSequence e))))
                              (notes s)) as [randomNote|].
      * unfold playSound, triggerAttackRelease, ret, throw.
        destruct (hasInstrument samples (instrument_name randomNote)) eqn:Hi;
          [|destruct (isInherited (instrument_name randomNote))];
          cbn; (split; [auto|]); auto.
        right. split; [auto|]. now exists randomNote.
      * cbn. auto.
Qed.

Lemma iter_next (j : nat) (seed : number Z) :
  Nat.iter j next (lazyRNG seed) = lazyRNG (Nat.iter j RNG.hash seed).
Proof.
  induction j as [|j IH]; [reflexivity|].
  rewrite !Nat.iter_succ, IH. reflexivity.
Qed.

Lemma mainLoop_effects samples evs :
  forall state e,
  exists played j,
    audio (lastEnv (mainLoop samples evs state e)) = audio e ++ played /\
    Forall (fun n => hasInstrument samples (instrument_name n) = true) played /\
    (List.length played
     <= countOf isKeyPress evs + countOf isBackgroundNote evs)%nat /\
    (j <= countOf isKeyPress evs)%nat /\
    currentSequence (lastEnv (mainLoop samples evs state e))
    = Nat.iter j next (currentSequence e).
Proof.
  unfold lastEnv.
  induction evs as [|ev evs IH]; intros state e; cbn [mainLoop].
  - exists [], 0%nat. cbn. rewrite app_nil_r. repeat split; auto.
  - rewrite !countOf_cons.
    pose proof (dispatch_effects samples ev state e) as [Hseq Haudio].
    assert (Hone : exists played1 j1,
               audio (snd (dispatch samples ev state e)) = audio e ++ played1 /\
               Forall (fun n => hasInstrument samples (instrument_name n) = true)
                      played1 /\
               (List.length played1
                <= (if isKeyPress ev then 1 else 0)
                   + (if isBackgroundNote ev then 1 else 0))%nat /\
               (j1 <= (if isKeyPress ev then 1 else 0))%nat /\
               currentSequence (snd (dispatch samples ev state e))
               = Nat.iter j1 next (currentSequence e)).
    { assert (Hj : exists j1,
                 (j1 <= (if isKeyPress ev then 1 else 0))%nat /\
                 currentSequence (snd (dispatch samples ev state e))
                 = Nat.iter j1 next (currentSequence e)).
      { destruct Hseq as [Hseq|[Hk Hseq]].
        - exists 0%nat. split; [lia | exact Hseq].
        - exists 1%nat. rewrite Hk. split; [lia | exact Hseq]. }
      destruct Hj as (j1 & Hj1 & Hseq1).
      destruct Haudio as [Ha|[Hkind (n & Hn & Ha)]].
      - exists [], j1. rewrite app_nil_r. repeat split; auto. cbn. lia.
      - exists [n], j1. repeat split; auto.
        cbn [List.length]. destruct Hkind as [-> | ->]; lia. }
    destruct Hone as (played1 & j1 & Ha1 & Hl1 & Hlen1 & Hj1 & Hs1).
    destruct (dispatch samples ev state e) as [[newState|x] e'] eqn:Hd;
      cbn [snd] in Ha1, Hs1.
    + destruct (render_run (circles newState) e')
        as (e2 & Hr & Hseq2 & _ & Haud2 & _).
      rewrite Hr. cbn [snd].
      destruct (gameEnd newState).
      * exists played1, j1. cbn [snd].
        rewrite Haud2, Hseq2. repeat split; auto; lia.
      * destruct (IH newState e2) as (played2 & j2 & Ha2 & Hl2 & Hlen2 & Hj2 & Hs2).
        destruct (mainLoop samples evs newState e2) as [emitted final].
        cbn [snd] in *.
        exists (played1 ++ played2), (j2 + j1)%nat.
        rewrite Ha2, Hs2, Haud2, Hseq2, Ha1, Hs1.
        rewrite app_assoc, length_app, Nat.iter_add.
        repeat split; auto; try lia.
        apply Forall_app. now split.
    + exists played1, j1. cbn [snd]. repeat split; auto; lia.
Qed.

(** X9.  Every sound a session triggers is of a loaded instrument, and it
    triggers at most one for every key press and every background note. *)
Theorem session_sounds (seed : Z) (notesArray : list NoteObject)
  (samples : Samples) (evs : list Event) :
  Forall (fun n => hasInstrument samples (instrument_name n) = true)
         (audio (lastEnv (session seed notesArray samples evs))) /\
  (List.length (audio (lastEnv (session seed notesArray samples evs)))
   <= countOf isKeyPress evs + countOf isBackgroundNote evs)%nat.
Proof.
  unfold session.
  destruct (mainLoop_effects samples evs (currentState notesArray)
              (startEnv notesArray seed))
    as (played & j & Ha & Hl & Hlen & _).
  rewrite Ha. cbn [startEnv audio app]. now split.
Qed.

(** X10.  The generator of a session is advanced only by key presses, one
    step at most for each: it ends at the seed hashed [j] times, for a [j]
    that is at most the number of key presses.  With a seed of at least 0
    whose product with [a] is a finite double (below [2^1024 - 2^970]) it
    holds an integer of at least 0, and one within [[0, m - 2]] once it has
    been advanced; with a larger seed it holds [NaN] once it has been
    advanced. *)
Theorem session_generator (seed : Z) (notesArray : list NoteObject)
  (samples : Samples) (evs : list Event) :
  exists j,
    (j <= countOf isKeyPress evs)%nat /\
    value (currentSequence (lastEnv (session seed notesArray samples evs)))
    = Nat.iter j RNG.hash (Finite seed) /\
    (0 <= seed -> RNG.a * seed < 2 ^ 1024 - 2 ^ 970 ->
     exists h,
       value (currentSequence (lastEnv (session seed notesArray samples evs)))
       = Finite h /\
       0 <= h /\ ((0 < j)%nat -> h <= RNG.m - 2)) /\
    (2 ^ 1024 - 2 ^ 970 <= RNG.a * seed -> (0 < j)%nat ->
     value (currentSequence (lastEnv (session seed notesArray samples evs)))
     = NaN).
Proof.
  unfold session.
  destruct (mainLoop_effects samples evs (currentState notesArray)
              (startEnv notesArray seed))
    as (played & j & _ & _ & _ & Hj & Hs).
  exists j. rewrite Hs. cbn [startEnv currentSequence].
  unfold createTriggeredRngStream. rewrite iter_next. cbn [value lazyRNG].
  split; [exact Hj|]. split; [reflexivity|]. split.
  - intros Hseed Hb. destruct j as [|j].
    + exists seed. split; [reflexivity|]. split; [exact Hseed | lia].
    + destruct (iter_hash_range seed j Hseed Hb) as (h & -> & Hh).
      exists h. split; [reflexivity|]. split; lia.
  - intros Hb Hpos. destruct j as [|j]; [lia|].
    rewrite Nat.iter_succ_r, (hash_overflows seed Hb). apply iter_hash_NaN.
Qed.

(** ** When a miss returns *)

Lemma randomIndex_inside (v : Q) (len : nat) :
  (0 < len)%nat -> (-1 <= v)%Q -> (v < 1)%Q ->
  0 <= randomIndex v len <= Z.of_nat len - 1.
Proof.
  intros Hlen Hlo Hhi. unfold randomIndex.
  assert (Hq : (0 < inject_Z (Z.of_nat len))%Q)
    by (rewrite <- (Zlt_Qlt 0); lia).
  assert (Hhalf : ((v + 1) / 2 == (v + 1) * (1 # 2))%Q) by field.
  assert (Hf0 : (0 <= (v + 1) / 2)%Q) by (rewrite Hhalf; lra).
  assert (Hf1 : ((v + 1) / 2 < 1)%Q) by (rewrite Hhalf; lra).
  split.
  - change 0 with (Qfloor 0). apply Qfloor_resp_le.
    apply Qmult_le_0_compat; [exact Hf0 | now apply Qlt_le_weak].
  - assert (Hlt : (inject_Z (Qfloor ((v + 1) / 2 * inject_Z (Z.of_nat len)))
                   < inject_Z (Z.of_nat len))%Q).
    { eapply Qle_lt_trans; [apply Qfloor_le|].
      setoid_replace (inject_Z (Z.of_nat len))
        with (1 * inject_Z (Z.of_nat len))%Q at 2 by ring.
      apply Qmult_lt_compat_r; [exact Hq | exact Hf1]. }
    rewrite <- Zlt_Qlt in Hlt. lia.
Qed.

(** With a chart that is not empty, a generator that holds an integer of at
    least 0 (one whose product with [a] is a finite double) draws a note of
    the chart: its next hash is below [m - 1], the random value is below 1
    and the random index is inside the chart. *)
Lemma random_note_found (v : Z) (chart : list NoteObject) :
  chart <> [] ->
  0 <= v ->
  RNG.a * v < 2 ^ 1024 - 2 ^ 970 ->
  exists randomNote,
    randomNoteFor (RNG.scale (RNG.hash (Finite v))) chart = Some randomNote /\
    In randomNote chart.
Proof.
  intros Hne Hv Hb.
  destruct (hash_range v Hv Hb) as (h & -> & Hh).
  destruct (RNG.scale (Finite h)) as [q|] eqn:E; [|discriminate E].
  assert (Hlen : (0 < List.length chart)%nat)
    by (destruct chart; [congruence | cbn; lia]).
  destruct (scale_range h q E ltac:(lia)) as [Hlo _].
  pose proof (scale_below_one h q E ltac:(lia)) as Hhi.
  destruct (arrayGet_in_bounds chart _ (randomIndex_inside q _ Hlen Hlo Hhi))
    as (randomNote & Hget).
  exists randomNote. cbn [randomNoteFor]. split; [exact Hget|].
  exact (arrayGet_In _ _ _ Hget).
Qed.



(** ** What stays on the canvas *)

Lemma isChild_without (x child : SVGElement) (children : list SVGElement) :
  isChild x children = true ->
  sameNode child x = false ->
  isChild x (without child children) = true.
Proof.
  unfold isChild, without. intros H Hdiff.
  apply existsb_exists in H. destruct H as (y & Hy & Hxy).
  apply existsb_exists. exists y. split; [|exact Hxy].
  apply filter_In. split; [exact Hy|].
  unfold sameNode in *. apply Nat.eqb_eq in Hxy. apply Nat.eqb_neq in Hdiff.
  apply negb_true_iff, Nat.eqb_neq. congruence.
Qed.

Lemma dispatch_svg samples ev (s : State) (e : Env) :
  svg (snd (dispatch samples ev s e)) = svg e \/
  exists keyCode hitCircle,
    ev = KeyPress keyCode /\
    find (inHitRange (keyToPositionMapping keyCode)) (circles s) = Some hitCircle /\
    svg (snd (dispatch samples ev s e)) = without (circle hitCircle) (svg e).
Proof.
  destruct ev as [|n|keyCode]; cbn [dispatch].
  - rewrite Tick_apply_run. now left.
  - left. destruct (user_played n).
    + unfold bind. now rewrite createCircleObj_run.
    + unfold bind, playSound, triggerAttackRelease, ret, throw.
      destruct (hasInstrument samples (instrument_name n));
        [|destruct (isInherited (instrument_name n))]; reflexivity.
  - unfold handleKeyPress.
    destruct (find (inHitRange (keyToPositionMapping keyCode)) (circles s))
      as [hitCircle|] eqn:Hfind.
    + unfold bind, playSound, removeChild, triggerAttackRelease, ret, throw.
      destruct (hasInstrument samples (instrument_name (note hitCircle)));
        [|destruct (isInherited (instrument_name (note hitCircle)))];
        cbn [svg]; try destruct (isChild (circle hitCircle) (svg e));
        cbn; auto; right; exists keyCode, hitCircle; auto.
    + left. unfold bind, callRandom. cbn [getRandomValue].
      destruct (randomNoteFor (RNG.scale (value (next (currentSequence e))))
                              (notes s)) as [randomNote|].
      * unfold playSound, triggerAttackRelease, ret, throw.
        destruct (hasInstrument samples (instrument_name randomNote));
          [|destruct (isInherited (instrument_name randomNote))]; reflexivity.
      * reflexivity.
Qed.

(** X12.  An element leaves the canvas only by being hit: after an emission
    and the rendering of its state, every element that was on the canvas is
    still on it, unless the emission was a key press that found a circle with
    that element.  In particular a tick takes no element off, so the element
    of a circle that [Tick] has dropped from [circles] stays drawn. *)
Theorem element_leaves_only_when_hit samples ev (state newState : State)
  (e e' : Env) (x : SVGElement) :
  dispatch samples ev state e = (Ok newState, e') ->
  isChild x (svg e) = true ->
  isChild x (svg (snd (render (circles newState) e'))) = true \/
  exists keyCode hitCircle,
    ev = KeyPress keyCode /\
    find (inHitRange (keyToPositionMapping keyCode)) (circles state)
      = Some hitCircle /\
    sameNode (circle hitCircle) x = true.
Proof.
  intros Hd Hx.
  destruct (render_run (circles newState) e') as (e2 & Hr & _ & _ & _ & Hold & _).
  rewrite Hr. cbn [snd].
  destruct (dispatch_svg samples ev state e) as [Hsvg|(k & hit & Hev & Hfind & Hsvg)];
    rewrite Hd in Hsvg; cbn [snd] in Hsvg.
  - left. apply Hold. now rewrite Hsvg.
  - destruct (sameNode (circle hit) x) eqn:Hsame.
    + right. now exists k, hit.
    + left. apply Hold. rewrite Hsvg. now apply isChild_without.
Qed.

Lemma element_leaves_only_when_hit_witness :
  exists s71 e71,
    dispatch loadedSamples TickDue edgeState
             (lastEnv (main pianoChart loadedSamples
                            (NoteDue pianoNote :: repeat TickDue 70)))
    = (Ok s71, e71) /\
    isChild (circle topCircle)
            (svg (lastEnv (main pianoChart loadedSamples
                                (NoteDue pianoNote :: repeat TickDue 70)))) = true /\
    circles s71 = [] /\
    isChild (circle topCircle) (svg (snd (render (circles s71) e71))) = true.
Proof.
  set (e70 := lastEnv (main pianoChart loadedSamples
                            (NoteDue pianoNote :: repeat TickDue 70))).
  assert (Hd : exists s71 e71,
             dispatch loadedSamples TickDue edgeState e70 = (Ok s71, e71) /\
             circles s71 = []).
  { eexists. eexists. split; vm_compute; reflexivity. }
  destruct Hd as (s71 & e71 & Hd & Hgone).
  assert (Hx : isChild (circle topCircle) (svg e70) = true)
    by (vm_compute; reflexivity).
  exists s71, e71.
  split; [exact Hd | split; [exact Hx | split; [exact Hgone|]]].
  destruct (element_leaves_only_when_hit loadedSamples TickDue edgeState s71
              e70 e71 (circle topCircle) Hd Hx)
    as [Hstays|(k & hit & Hev & _)]; [exact Hstays | discriminate Hev].
Defined.

(** ** Time, and sessions without key presses *)

Lemma dispatch_time samples ev (s s' : State) (e e' : Env) :
  dispatch samples ev s e = (Ok s', e') ->
  time s' = time s + Z.of_nat (if isTick ev then 1 else 0).
Proof.
  intros Hd. apply dispatch_cases in Hd.
  destruct ev as [|n|keyCode]; cbn [isTick].
  - rewrite Tick_apply_run in Hd. injection Hd as <- _. cbn. lia.
  - destruct (user_played n); subst s'; cbn; lia.
  - destruct (handleKeyPress_returns _ _ _ _ _ _ Hd) as (_ & Ht & _). lia.
Qed.

Lemma mainLoop_time samples evs :
  forall state e,
    (List.length (fst (mainLoop samples evs state e)) <= List.length evs)%nat /\
    time (lastState (mainLoop samples evs state e))
    = time state
      + Z.of_nat (countOf isTick
                    (firstn (List.length (fst (mainLoop samples evs state e))) evs)).
Proof.
  unfold lastState.
  induction evs as [|ev evs IH]; intros state e; cbn [mainLoop].
  - cbn. split; [lia|]. unfold countOf. cbn. lia.
  - destruct (dispatch samples ev state e) as [[newState|x] e'] eqn:Hd.
    + pose proof (dispatch_time _ _ _ _ _ _ Hd) as Ht.
      destruct (gameEnd newState).
      * cbn [fst snd List.length firstn]. split; [lia|].
        rewrite countOf_cons. unfold countOf at 1. cbn [firstn filter List.length].
        lia.
      * specialize (IH newState (snd (render (circles newState) e'))).
        destruct (mainLoop samples evs newState
                    (snd (render (circles newState) e'))) as [emitted final].
        cbn [fst snd List.length firstn] in *. destruct IH as [IH1 IH2].
        split; [lia|]. rewrite countOf_cons. lia.
    + cbn [fst snd List.length firstn]. split; [lia|].
      unfold countOf. cbn. lia.
Qed.

(** X13.  [time] counts the ticks: a session emits a state for a first part
    of its events (all of them unless an emission threw), and the [time] of
    the state it stops in is the number of ticks in that part. *)
Theorem time_counts_ticks (seed : Z) (notesArray : list NoteObject)
  (samples : Samples) (evs : list Event) :
  (List.length (fst (session seed notesArray samples evs)) <= List.length evs)%nat /\
  time (lastState (session seed notesArray samples evs))
  = Z.of_nat
      (countOf isTick
         (firstn (List.length (fst (session seed notesArray samples evs))) evs)).
Proof.
  unfold session.
  destruct (mainLoop_time samples evs (currentState notesArray)
              (startEnv notesArray seed)) as [Hlen Ht].
  split; [exact Hlen|]. rewrite Ht. cbn [currentState initialState time]. lia.
Qed.

Lemma mainLoop_without_keys samples evs :
  forall state e,
    Forall (fun ev => isKeyPress ev = false) evs ->
    Forall (fun ev => soundsSafely samples ev = true) evs ->
    gameEnd state = false ->
    List.length (fst (mainLoop samples evs state e)) = List.length evs /\
    score (lastState (mainLoop samples evs state e)) = score state /\
    (List.length (circles (lastState (mainLoop samples evs state e)))
     <= List.length (circles state) + countOf isUserNote evs)%nat.
Proof.
  unfold lastState.
  induction evs as [|ev evs IH]; intros state e Hkeys Hsafe Hend; cbn [mainLoop].
  - cbn. repeat split; lia.
  - apply Forall_cons_iff in Hkeys. destruct Hkeys as [Hev Hkeys].
    apply Forall_cons_iff in Hsafe. destruct Hsafe as [Hsound Hsafe].
    rewrite countOf_cons.
    assert (Hstep : exists newState e',
               dispatch samples ev state e = (Ok newState, e') /\
               gameEnd newState = false /\ score newState = score state /\
               (List.length (circles newState)
                <= List.length (circles state)
                   + (if isUserNote ev then 1 else 0))%nat).
    { destruct ev as [|n|keyCode]; cbn [dispatch isUserNote];
        [| |discriminate Hev].
      - rewrite Tick_apply_run. eexists. eexists. split; [reflexivity|].
        cbn [gameEnd score circles]. repeat split; auto.
        match goal with
        | |- context [List.length (filter ?f ?l)] =>
            pose proof (filter_length_le f l) as Hlen
        end.
        rewrite length_map, length_combine, length_seq, Nat.min_id in Hlen. lia.
      - cbn [soundsSafely] in Hsound. destruct (user_played n).
        + unfold bind. rewrite createCircleObj_run.
          eexists. eexists. split; [reflexivity|].
          cbn [gameEnd score circles UpdateCircleState.apply].
          rewrite length_app. cbn [List.length]. repeat split; auto; lia.
        + unfold bind. cbn [orb] in Hsound.
          destruct (playSound_some n samples e Hsound) as (e1 & -> & _).
          exists state, e1. repeat split; auto; lia. }
    destruct Hstep as (newState & e' & Hd & Hend' & Hscore & Hlen).
    rewrite Hd, Hend'.
    specialize (IH newState (snd (render (circles newState) e')) Hkeys Hsafe
                  Hend').
    destruct (mainLoop samples evs newState
                (snd (render (circles newState) e'))) as [emitted final].
    cbn [fst snd List.length] in *. destruct IH as (IH1 & IH2 & IH3).
    repeat split; lia.
Qed.

(** X14.  Ticks and user notes coming due never throw, a background note
    coming due throws only in [playSound], when its instrument has the name of
    an inherited member of the dictionary, and none of them touches the score:
    a session whose events hold no key press and no such background note
    emits a state for every event and stops with score 0, as many ticks on
    [time] as it was fed, and at most one circle for every user note. *)
Theorem session_without_keys (seed : Z) (notesArray : list NoteObject)
  (samples : Samples) (evs : list Event) :
  Forall (fun ev => isKeyPress ev = false) evs ->
  Forall (fun ev => soundsSafely samples ev = true) evs ->
  List.length (fst (session seed notesArray samples evs)) = List.length evs /\
  score (lastState (session seed notesArray samples evs)) = 0 /\
  time (lastState (session seed notesArray samples evs))
  = Z.of_nat (countOf isTick evs) /\
  (List.length (circles (lastState (session seed notesArray samples evs)))
   <= countOf isUserNote evs)%nat.
Proof.
  intros Hkeys Hsafe. unfold session.
  destruct (mainLoop_without_keys samples evs (currentState notesArray)
              (startEnv notesArray seed) Hkeys Hsafe eq_refl)
    as (Hlen & Hscore & Hc).
  destruct (mainLoop_time samples evs (currentState notesArray)
              (startEnv notesArray seed)) as [_ Ht].
  rewrite Hlen, firstn_all in Ht.
  split; [exact Hlen|]. split; [exact Hscore|]. split.
  - rewrite Ht. cbn [currentState initialState time]. lia.
  - exact Hc.
Qed.

Lemma session_without_keys_witness :
  Forall (fun ev => isKeyPress ev = false)
         (NoteDue pianoNote :: repeat TickDue 71) /\
  Forall (fun ev => soundsSafely loadedSamples ev = true)
         (NoteDue pianoNote :: repeat TickDue 71) /\
  List.length (fst (session 42 pianoChart loadedSamples
                            (NoteDue pianoNote :: repeat TickDue 71)))
  = 72%nat /\
  time (lastState (session 42 pianoChart loadedSamples
                           (NoteDue pianoNote :: repeat TickDue 71)))
  = 71.
Proof.
  assert (Hkeys : Forall (fun ev => isKeyPress ev = false)
                         (NoteDue pianoNote :: repeat TickDue 71)).
  { constructor; [reflexivity|]. apply Forall_forall. intros ev Hev.
    apply repeat_spec in Hev. now subst ev. }
  assert (Hsafe : Forall (fun ev => soundsSafely loadedSamples ev = true)
                         (NoteDue pianoNote :: repeat TickDue 71)).
  { constructor; [reflexivity|]. apply Forall_forall. intros ev Hev.
    apply repeat_spec in Hev. now subst ev. }
  split; [exact Hkeys | split; [exact Hsafe|]].
  destruct (session_without_keys 42 pianoChart loadedSamples _ Hkeys Hsafe)
    as (Hlen & _ & Ht & _).
  split; [rewrite Hlen | rewrite Ht]; vm_compute; reflexivity.
Defined.

(** ** The fall of a circle and the hit window *)

(** Ticks on a state with one circle that stays in the playable area. *)
Lemma mainLoop_ticks_single samples k :
  forall state e c,
    circles state = [c] ->
    gameEnd state = false ->
    isChild (circle c) (svg e) = true ->
    yPos c + 5 * Z.of_nat k <= 350 ->
    exists emitted state' e' c',
      mainLoop samples (repeat TickDue k) state e = (emitted, (state', e')) /\
      List.length emitted = k /\
      circles state' = [c'] /\
      note c' = note c /\ circle c' = circle c /\
      yPos c' = yPos c + 5 * Z.of_nat k /\
      score state' = score state /\ notes state' = notes state /\
      exits state' = exits state /\ gameEnd state' = false /\
      isChild (circle c) (svg e') = true /\
      currentSequence e' = currentSequence e.
Proof.
  induction k as [|k IH]; intros state e c Hc Hend Hchild Hpos.
  - exists [], state, e, c. cbn. repeat split; auto; lia.
  - cbn [repeat mainLoop dispatch]. rewrite Tick_apply_run, Hc.
    cbn [List.length seq combine map fst snd filter gameEnd circles].
    assert (Hle : (yPos (Tick.moved (heap e) c) <=? 350) = true)
      by (apply Z.leb_le; cbn [Tick.moved yPos]; lia).
    rewrite Hle, Hend.
    match goal with
    | |- context [mainLoop samples (repeat TickDue k) ?s1 (snd (render ?cs ?e1))] =>
        destruct (render_run cs e1) as (e2 & Hr & Hseq & _ & _ & _ & Hin);
        rewrite Hr; cbn [snd];
        destruct (IH s1 e2 (Tick.moved (heap e) c)) as
            (emitted & state' & e' & c' & Hrun & Hlen & Hc' & Hn & Hel & Hy
             & Hsc & Hnotes & Hex & Hend' & Hchild' & Hseq')
    end.
    + reflexivity.
    + reflexivity.
    + apply (Hin (Tick.moved (heap e) c)). now left.
    + cbn [Tick.moved yPos]. lia.
    + rewrite Hrun.
      cbn [Tick.moved note circle yPos score notes exits currentSequence]
        in Hn, Hel, Hy, Hsc, Hnotes, Hex, Hchild', Hseq, Hseq'.
      eexists. exists state', e', c'. split; [reflexivity|].
      cbn [List.length].
      assert (Hgt : (yPos c >? 350) = false)
        by (rewrite Z.gtb_ltb; apply Z.ltb_ge; lia).
      rewrite Hgt, app_nil_r in Hex.
      repeat split; auto; try lia; congruence.
Qed.

(** Ticks on a state without circles. *)
Lemma mainLoop_ticks_empty samples k :
  forall state e,
    circles state = [] ->
    gameEnd state = false ->
    circles (lastState (mainLoop samples (repeat TickDue k) state e)) = [] /\
    List.length (fst (mainLoop samples (repeat TickDue k) state e)) = k.
Proof.
  unfold lastState.
  induction k as [|k IH]; intros state e Hc Hend.
  - cbn. now split.
  - cbn [repeat mainLoop dispatch]. rewrite Tick_apply_run, Hc.
    cbn [List.length seq combine map filter gameEnd circles]. rewrite Hend.
    match goal with
    | |- context [mainLoop samples (repeat TickDue k) ?s1 ?e1] =>
        destruct (IH s1 e1 eq_refl eq_refl) as [IH1 IH2];
        destruct (mainLoop samples (repeat TickDue k) s1 e1) as [emitted final]
    end.
    cbn [fst snd List.length] in *. split; [exact IH1 | lia].
Qed.

(** The session of a user note from the moment it comes due through [k]
    ticks, for [k] up to 70. *)
Lemma session_after_ticks seed notesArray samples (n : NoteObject) k :
  user_played n = true ->
  (k <= 70)%nat ->
  exists emitted state e c,
    session seed notesArray samples (NoteDue n :: repeat TickDue k)
    = (emitted, (state, e)) /\
    List.length emitted = S k /\
    circles state = [c] /\
    note c = n /\
    cx (circle c) = determineCxPosition n /\
    yPos c = 5 * Z.of_nat k /\
    score state = 0 /\ notes state = notesArray /\ exits state = [] /\
    gameEnd state = false /\
    isChild (circle c) (svg e) = true /\
    currentSequence e = createTriggeredRngStream seed.
Proof.
  intros Hu Hk. unfold session. cbn [mainLoop dispatch]. rewrite Hu.
  unfold bind. rewrite createCircleObj_run. unfold ret. cbv beta iota.
  match goal with
  | |- context [render (circles ?s) ?e1] =>
      set (s1 := s);
      destruct (render_run (circles s1) e1) as (e2 & Hr & Hseq & _ & _ & _ & Hin);
      rewrite Hr
  end.
  cbn [snd]. change (gameEnd s1) with false. cbv iota.
  match type of Hin with
  | forall c, In c (circles _) -> _ =>
      destruct (mainLoop_ticks_single samples k s1 e2
                  {| self := S (heap (startEnv notesArray seed)); note := n;
                     circle := {| node := heap (startEnv notesArray seed);
                                  cx := determineCxPosition n |};
                     yPos := 0 |})
        as (emitted & state' & e' & c' & Hrun & Hlen & Hc' & Hn & Hel & Hy
            & Hsc & Hnotes & Hex & Hend' & Hchild' & Hseq')
  end.
  - reflexivity.
  - reflexivity.
  - apply Hin. now left.
  - cbn [yPos]. lia.
  - rewrite Hrun. cbn [note circle yPos] in Hn, Hel, Hy, Hchild'.
    eexists. exists state', e', c'. split; [reflexivity|].
    cbn [List.length]. rewrite Hel. cbn [cx].
    repeat split; auto; try lia; try congruence.
    rewrite Hseq', Hseq. reflexivity.
Qed.

(** X15.  A circle falls 5 a tick for 70 ticks and is then gone: [k] ticks
    after a user note came due, the session holds exactly one circle, of that
    note, in the lane of its pitch, at [yPos] [5 * k], if [k] is at most 70,
    and no circle if [k] is 71 or more. *)
Theorem circle_falls (seed : Z) (notesArray : list NoteObject)
  (samples : Samples) (n : NoteObject) (k : nat) :
  user_played n = true ->
  ((k <= 70)%nat ->
   exists c,
     circles (lastState (session seed notesArray samples
                                 (NoteDue n :: repeat TickDue k))) = [c] /\
     note c = n /\ yPos c = 5 * Z.of_nat k /\
     cx (circle c) = determineCxPosition n) /\
  ((71 <= k)%nat ->
   circles (lastState (session seed notesArray samples
                               (NoteDue n :: repeat TickDue k))) = []) /\
  List.length (fst (session seed notesArray samples
                            (NoteDue n :: repeat TickDue k))) = S k.
Proof.
  intros Hu.
  assert (Hlate : (71 <= k)%nat ->
            circles (lastState (session seed notesArray samples
                                        (NoteDue n :: repeat TickDue k))) = [] /\
            List.length (fst (session seed notesArray samples
                                      (NoteDue n :: repeat TickDue k))) = S k).
  { intros Hk.
    assert (H70 : (70 <= 70)%nat) by lia.
    destruct (session_after_ticks seed notesArray samples n 70 Hu H70)
      as (emitted & state & e & c & Hrun & Hlen & Hc & _ & _ & Hy & _ & _ & _
          & Hend & _).
    replace k with (70 + S (k - 71))%nat by lia.
    rewrite repeat_app.
    change (repeat TickDue (S (k - 71)))
      with (TickDue :: repeat TickDue (k - 71)).
    rewrite app_comm_cons.
    assert (Hall : List.length emitted
                   = List.length (NoteDue n :: repeat TickDue 70))
      by (cbn [List.length]; rewrite repeat_length; exact Hlen).
    unfold session in *.
    rewrite (mainLoop_app samples _ _ _ _ _ _ _ Hrun Hall Hend).
    unfold lastState. cbn [fst snd mainLoop dispatch].
    rewrite Tick_apply_run, Hc.
    cbn [List.length seq combine map fst snd filter gameEnd circles].
    assert (Hgone : (yPos (Tick.moved (heap e) c) <=? 350) = false)
      by (apply Z.leb_gt; cbn [Tick.moved yPos]; lia).
    rewrite Hgone, Hend.
    match goal with
    | |- context [mainLoop samples (repeat TickDue (k - 71)) ?s1 ?e1] =>
        destruct (mainLoop_ticks_empty samples (k - 71) s1 e1 eq_refl eq_refl)
          as [Hnone Hcount];
        unfold lastState in Hnone;
        destruct (mainLoop samples (repeat TickDue (k - 71)) s1 e1)
          as [emitted2 final]
    end.
    cbn [fst snd] in *. split; [exact Hnone|].
    rewrite length_app. cbn [List.length]. lia. }
  split; [|split].
  - intros Hk.
    destruct (session_after_ticks seed notesArray samples n k Hu Hk)
      as (emitted & state & e & c & Hrun & _ & Hc & Hn & Hcx & Hy & _).
    rewrite Hrun. exists c. unfold lastState. cbn [fst snd]. auto.
  - intros Hk. now apply Hlate.
  - destruct (Nat.le_gt_cases k 70) as [Hk|Hk].
    + destruct (session_after_ticks seed notesArray samples n k Hu Hk)
        as (emitted & state & e & c & Hrun & Hlen & _).
      rewrite Hrun. exact Hlen.
    + now apply Hlate.
Qed.

Lemma circle_falls_witness :
  user_played pianoNote = true /\
  List.length (fst (session 42 pianoChart loadedSamples
                            (NoteDue pianoNote :: repeat TickDue 3))) = 4%nat.
Proof.
  split; [reflexivity|].
  apply (circle_falls 42 pianoChart loadedSamples pianoNote 3 eq_refl).
Defined.

Lemma find_single_in_range (keyCode : Key) (c : CircleObj) :
  cx (circle c) = keyToPositionMapping keyCode ->
  (320 <= yPos c <= 350 ->
   find (inHitRange (keyToPositionMapping keyCode)) [c] = Some c) /\
  (yPos c < 320 ->
   find (inHitRange (keyToPositionMapping keyCode)) [c] = None).
Proof.
  intros Hcx. cbn [find]. unfold inHitRange. rewrite Hcx, String.eqb_refl.
  split; intros Hy.
  - destruct (Z.leb_spec 320 (yPos c)); [|lia].
    destruct (Z.leb_spec (yPos c) 350); [reflexivity|lia].
  - destruct (Z.leb_spec 320 (yPos c)); [lia|reflexivity].
Qed.

(** X16.  The hit window of a note is the ticks 64 to 70 after it came due:
    pressing the key of its lane then, with no other event in between, is a
    hit, for a note whose instrument is loaded or has a name that is no
    inherited member of the dictionary.  Every event emitted a state, the
    score is 10 and no circle is left. *)
Theorem hit_window (seed : Z) (notesArray : list NoteObject)
  (samples : Samples) (n : NoteObject) (keyCode : Key) (k : nat) :
  user_played n = true ->
  instrumentOk samples n = true ->
  determineCxPosition n = keyToPositionMapping keyCode ->
  (64 <= k <= 70)%nat ->
  List.length (fst (session seed notesArray samples
                            (NoteDue n :: repeat TickDue k ++ [KeyPress keyCode])))
  = (k + 2)%nat /\
  score (lastState (session seed notesArray samples
                            (NoteDue n :: repeat TickDue k ++ [KeyPress keyCode])))
  = 10 /\
  circles (lastState (session seed notesArray samples
                              (NoteDue n :: repeat TickDue k ++ [KeyPress keyCode])))
  = [].
Proof.
  intros Hu Hok Hlane [Hlo Hhi].
  destruct (session_after_ticks seed notesArray samples n k Hu Hhi)
    as (emitted & state & e & c & Hrun & Hlen & Hc & Hn & Hcx & Hy & Hsc & _ & _
        & Hend & Hchild & _).
  assert (Hfind : find (inHitRange (keyToPositionMapping keyCode)) (circles state)
                  = Some c).
  { rewrite Hc. apply find_single_in_range; [congruence | lia]. }
  rewrite <- Hn in Hok.
  destruct (mainLoop_hit samples keyCode state e c Hfind Hok Hchild Hend)
    as (newState & final & Hkey & Hscore & Hcircles).
  assert (Hall : List.length emitted = List.length (NoteDue n :: repeat TickDue k))
    by (cbn [List.length]; rewrite repeat_length; exact Hlen).
  rewrite app_comm_cons. unfold session in *.
  rewrite (mainLoop_app samples _ _ _ _ _ _ _ Hrun Hall Hend), Hkey.
  unfold lastState. cbn [fst snd]. rewrite length_app. cbn [List.length].
  split; [lia|]. split; [lia|].
  rewrite Hcircles, Hc. cbn [filter]. now rewrite Nat.eqb_refl.
Qed.

Lemma hit_window_witness :
  user_played pianoNote = true /\
  instrumentOk loadedSamples pianoNote = true /\
  determineCxPosition pianoNote = keyToPositionMapping KeyH /\
  (64 <= 70 <= 70)%nat /\
  score (lastState (session 42 pianoChart loadedSamples
                            (NoteDue pianoNote :: repeat TickDue 70
                                     ++ [KeyPress KeyH])))
  = 10.
Proof.
  assert (Hk : (64 <= 70 <= 70)%nat) by lia.
  split; [reflexivity|].
  split; [reflexivity | split; [reflexivity | split; [exact Hk|]]].
  apply (hit_window 42 pianoChart loadedSamples pianoNote KeyH 70
           eq_refl eq_refl eq_refl Hk).
Defined.

(** The loop on a single key press that finds no circle, with a chart on
    every note of which [playSound] returns. *)
Lemma mainLoop_miss samples keyCode state e (v : Z) :
  notes state <> [] ->
  Forall (fun n => instrumentOk samples n = true) (notes state) ->
  value (currentSequence e) = Finite v ->
  0 <= v ->
  RNG.a * v < 2 ^ 1024 - 2 ^ 970 ->
  find (inHitRange (keyToPositionMapping keyCode)) (circles state) = None ->
  gameEnd state = false ->
  exists newState final,
    mainLoop samples [KeyPress keyCode] state e = ([newState], (newState, final)) /\
    score newState = Z.max 0 (score state - 1) /\
    circles newState = circles state.
Proof.
  intros Hne Hall Hval Hv Hb Hfind Hend.
  destruct (random_note_found v (notes state) Hne Hv Hb)
    as (randomNote & Hget & Hin).
  assert (Hget' : randomNoteFor (fst (getRandomValue (currentSequence e)))
                                (notes state) = Some randomNote).
  { cbn [getRandomValue fst next lazyRNG value]. now rewrite Hval. }
  rewrite Forall_forall in Hall.
  destruct (handleKeyPress_miss keyCode state samples e randomNote Hfind Hget'
              (Hall randomNote Hin)) as (e' & Hrun & _).
  cbn [mainLoop dispatch]. rewrite Hrun. cbn [gameEnd circles]. rewrite Hend.
  eexists. eexists. split; [reflexivity|]. split; reflexivity.
Qed.

(** X17.  Pressing the key of a note's lane before its window, less than 64
    ticks after it came due, is a miss that costs nothing at score 0 and does
    not use the note up: with a chart that is not empty and on every note of
    which [playSound] returns (the instrument is loaded, or its name is no
    inherited member of the dictionary), and a seed of at least 0 whose
    product with [a] is a finite double, the press returns, the score is 0
    and the circle is still falling. *)
Theorem early_press_keeps_note (seed : Z) (notesArray : list NoteObject)
  (samples : Samples) (n : NoteObject) (keyCode : Key) (k : nat) :
  user_played n = true ->
  determineCxPosition n = keyToPositionMapping keyCode ->
  (k < 64)%nat ->
  notesArray <> [] ->
  Forall (fun n0 => instrumentOk samples n0 = true) notesArray ->
  0 <= seed ->
  RNG.a * seed < 2 ^ 1024 - 2 ^ 970 ->
  List.length (fst (session seed notesArray samples
                            (NoteDue n :: repeat TickDue k ++ [KeyPress keyCode])))
  = (k + 2)%nat /\
  score (lastState (session seed notesArray samples
                            (NoteDue n :: repeat TickDue k ++ [KeyPress keyCode])))
  = 0 /\
  exists c,
    circles (lastState (session seed notesArray samples
                                (NoteDue n :: repeat TickDue k ++ [KeyPress keyCode])))
    = [c] /\
    note c = n /\ yPos c = 5 * Z.of_nat k.
Proof.
  intros Hu Hlane Hk Hne Hall Hseed Hb.
  destruct (session_after_ticks seed notesArray samples n k Hu ltac:(lia))
    as (emitted & state & e & c & Hrun & Hlen & Hc & Hn & Hcx & Hy & Hsc & Hnotes
        & _ & Hend & _ & Hseq).
  assert (Hfind : find (inHitRange (keyToPositionMapping keyCode)) (circles state)
                  = None).
  { rewrite Hc. apply find_single_in_range; [congruence | lia]. }
  destruct (mainLoop_miss samples keyCode state e seed) as
      (newState & final & Hkey & Hscore & Hcircles); auto.
  - now rewrite Hnotes.
  - now rewrite Hnotes.
  - now rewrite Hseq.
  - assert (Hall' : List.length emitted
                    = List.length (NoteDue n :: repeat TickDue k))
      by (cbn [List.length]; rewrite repeat_length; exact Hlen).
    rewrite app_comm_cons. unfold session in *.
    rewrite (mainLoop_app samples _ _ _ _ _ _ _ Hrun Hall' Hend), Hkey.
    unfold lastState. cbn [fst snd]. rewrite length_app. cbn [List.length].
    split; [lia|]. split; [lia|].
    exists c. rewrite Hcircles. auto.
Qed.

Lemma early_press_keeps_note_witness :
  user_played pianoNote = true /\
  determineCxPosition pianoNote = keyToPositionMapping KeyH /\
  (10 < 64)%nat /\ pianoChart <> [] /\
  Forall (fun n0 => instrumentOk loadedSamples n0 = true) pianoChart /\
  0 <= 42 /\ RNG.a * 42 < 2 ^ 1024 - 2 ^ 970 /\
  score (lastState (session 42 pianoChart loadedSamples
                            (NoteDue pianoNote :: repeat TickDue 10
                                     ++ [KeyPress KeyH])))
  = 0.
Proof.
  assert (Hk : (10 < 64)%nat) by lia.
  assert (Hne : pianoChart <> []) by discriminate.
  assert (Hall : Forall (fun n0 => instrumentOk loadedSamples n0 = true)
                        pianoChart)
    by (constructor; [reflexivity | constructor]).
  assert (Hseed : 0 <= 42) by lia.
  assert (Hb : RNG.a * 42 < 2 ^ 1024 - 2 ^ 970) by (vm_compute; reflexivity).
  split; [reflexivity|]. split; [reflexivity|]. split; [exact Hk|].
  split; [exact Hne|]. split; [exact Hall|]. split; [exact Hseed|].
  split; [exact Hb|].
  exact (proj1 (proj2 (early_press_keeps_note 42 pianoChart loadedSamples
                         pianoNote KeyH 10 eq_refl eq_refl Hk Hne Hall Hseed
                         Hb))).
Defined.

(** ** Which circle a key press takes *)





(** ** Where a session is when it has not stopped *)

(** The state and environment a loop ends in, after a state was emitted for
    every event, are a pair the session passes through. *)
Lemma mainLoop_inSession samples notesArray seed evs :
  forall state e emitted state' e',
    inSession samples notesArray seed state e ->
    mainLoop samples evs state e = (emitted, (state', e')) ->
    List.length emitted = List.length evs ->
    inSession samples notesArray seed state' e'.
Proof.
  induction evs as [|ev evs IH]; intros state e emitted state' e' Hs Hrun Hlen;
    cbn [mainLoop] in Hrun.
  - inversion Hrun; subst. exact Hs.
  - destruct (dispatch samples ev state e) as [[newState|x] e1] eqn:Hd.
    + pose proof (session_emit _ _ _ _ _ _ _ _ Hs Hd) as Hnew.
      destruct (gameEnd newState).
      * inversion Hrun; subst. exact Hnew.
      * destruct (mainLoop samples evs newState
                    (snd (render (circles newState) e1))) as [tr w] eqn:Hrest.
        destruct w as [s2 e2]. inversion Hrun; subst.
        cbn [List.length] in Hlen.
        apply (IH _ _ tr state' e' Hnew Hrest). lia.
    + inversion Hrun; subst. discriminate Hlen.
Qed.

Lemma hit_in_session_witness :
  inSession loadedSamples pianoChart 42 readyState readyEnv /\
  find (inHitRange (keyToPositionMapping KeyH)) (circles readyState)
    = Some readyCircle /\
  instrumentOk loadedSamples (note readyCircle) = true /\
  exists state' e',
    handleKeyPress KeyH readyState loadedSamples readyEnv = (Ok state', e').
Proof.
  assert (Hs : inSession loadedSamples pianoChart 42 readyState readyEnv).
  { apply (mainLoop_inSession loadedSamples pianoChart 42
             (NoteDue pianoNote :: repeat TickDue 64)
             (currentState pianoChart) (startEnv pianoChart 42)
             (fst readySession) readyState readyEnv).
    - apply session_start.
    - vm_compute. reflexivity.
    - vm_compute. reflexivity. }
  assert (Hfind : find (inHitRange (keyToPositionMapping KeyH)) (circles readyState)
                  = Some readyCircle) by (vm_compute; reflexivity).
  assert (Hok : instrumentOk loadedSamples (note readyCircle) = true)
    by reflexivity.
  split; [exact Hs | split; [exact Hfind | split; [exact Hok|]]].
  destruct (proj1 (hit_in_session loadedSamples pianoChart 42 KeyH readyState
                     readyEnv readyCircle Hs Hfind) Hok)
    as (state' & e' & _ & _ & Hrun & _).
  exists state', e'. exact Hrun.
Defined.

(** X20.  A session that stopped before its last event ignores whatever is
    fed to it afterwards: it emits the same states and stops in the same
    state and environment. *)
Theorem stopped_session_ignores_rest (seed : Z) (notesArray : list NoteObject)
  (samples : Samples) (evs more : list Event) :
  (List.length (fst (session seed notesArray samples evs)) < List.length evs)%nat ->
  session seed notesArray samples (evs ++ more)
  = session seed notesArray samples evs.
Proof.
  unfold session.
  generalize (currentState notesArray) (startEnv notesArray seed).
  induction evs as [|ev evs IH]; intros state e Hlen; cbn [mainLoop app] in *.
  - cbn in Hlen. lia.
  - destruct (dispatch samples ev state e) as [[newState|x] e1]; [|reflexivity].
    destruct (gameEnd newState); [reflexivity|].
    specialize (IH newState (snd (render (circles newState) e1))).
    destruct (mainLoop samples evs newState
                (snd (render (circles newState) e1))) as [tr w] eqn:Hrest.
    cbn [fst List.length] in Hlen. rewrite IH by (cbn [fst]; lia).
    reflexivity.
Qed.

Lemma stopped_session_ignores_rest_witness :
  (List.length (fst (session 42 [] loadedSamples [TickDue; KeyPress KeyH]))
   < List.length [TickDue; KeyPress KeyH])%nat /\
  session 42 [] loadedSamples ([TickDue; KeyPress KeyH] ++ [TickDue; TickDue])
  = session 42 [] loadedSamples [TickDue; KeyPress KeyH].
Proof.
  assert (Hlen : (List.length (fst (session 42 [] loadedSamples
                                            [TickDue; KeyPress KeyH]))
                  < List.length [TickDue; KeyPress KeyH])%nat)
    by (vm_compute; lia).
  split; [exact Hlen|].
  apply (stopped_session_ignores_rest 42 [] loadedSamples _ _ Hlen).
Defined.

(** ** What a tick does with every circle *)




(** The circles a tick keeps, in order. *)
Lemma moved_kept (cs : list CircleObj) (a : loc) :
  let kept :=
    filter (fun c => yPos c <=? 350)
           (map (fun p => Tick.moved (fst p) (snd p))
                (combine (seq a (List.length cs)) cs)) in
  map note kept = map note (filter (fun c => yPos c <=? 345) cs) /\
  map circle kept = map circle (filter (fun c => yPos c <=? 345) cs) /\
  map yPos kept = map (fun c => yPos c + 5) (filter (fun c => yPos c <=? 345) cs) /\
  Forall (fun c => (a <= self c)%nat) kept.
Proof.
  cbv zeta. revert a. induction cs as [|c cs IH]; intros a.
  - cbn. repeat split; constructor.
  - cbn [List.length seq combine map fst snd filter].
    assert (H : (yPos (Tick.moved a c) <=? 350) = (yPos c <=? 345)).
    { cbn [Tick.moved yPos].
      destruct (Z.leb_spec (yPos c + 5) 350), (Z.leb_spec (yPos c) 345);
        reflexivity || lia. }
    rewrite H. destruct (IH (S a)) as (IH1 & IH2 & IH3 & IH4).
    assert (IH4' : Forall (fun c0 => (a <= self c0)%nat)
                     (filter (fun c0 => yPos c0 <=? 350)
                        (map (fun p => Tick.moved (fst p) (snd p))
                             (combine (seq (S a) (List.length cs)) cs)))).
    { eapply Forall_impl; [|exact IH4]. cbn beta. intros c0 Hc0. lia. }
    destruct (yPos c <=? 345); cbn [map Tick.moved note circle yPos].
    + rewrite IH1, IH2, IH3. repeat split; try reflexivity.
      constructor; [cbn; lia | exact IH4'].
    + repeat split; assumption.
Qed.

(** X21.  What a tick does to a state whose numbers are integers below 2^53
    in absolute value, where the sums [yPos + 5] and [time + 1] of the code
    are exact: the circles at most at 345 are kept, in their order, each as a
    new object with the note and the element of the old one and [yPos] 5
    higher; no other circle is kept; [time] is one more, and [score], [notes]
    and [gameEnd] are unchanged. *)
Theorem tick_keeps_circles_in_order (s : State) (e : Env) :
  Z.abs (time s) < 2 ^ 53 ->
  Forall (fun c => Z.abs (yPos c) < 2 ^ 53) (circles s) ->
  exists s' e',
    Tick.apply s e = (Ok s', e') /\
    map note (circles s')
    = map note (filter (fun c => yPos c <=? 345) (circles s)) /\
    map circle (circles s')
    = map circle (filter (fun c => yPos c <=? 345) (circles s)) /\
    map yPos (circles s')
    = map (fun c => yPos c + 5) (filter (fun c => yPos c <=? 345) (circles s)) /\
    Forall (fun c => (heap e <= self c < heap e')%nat) (circles s') /\
    time s' = time s + 1 /\
    score s' = score s /\ notes s' = notes s /\ gameEnd s' = gameEnd s.
Proof.
  intros _ _. eexists. eexists. split; [apply Tick_apply_run|].
  cbn [circles time score notes gameEnd heap].
  destruct (moved_kept (circles s) (heap e)) as (H1 & H2 & H3 & H4).
  split; [exact H1|]. split; [exact H2|]. split; [exact H3|].
  split; [|repeat split].
  apply Forall_forall. intros c Hc. split.
  - rewrite Forall_forall in H4. now apply H4.
  - apply filter_In in Hc. destruct Hc as [Hc _].
    apply (in_map self) in Hc. rewrite moved_addresses in Hc.
    apply in_seq in Hc. lia.
Qed.

Lemma tick_keeps_circles_in_order_witness :
  Z.abs (time readyState) < 2 ^ 53 /\
  Forall (fun c => Z.abs (yPos c) < 2 ^ 53) (circles readyState) /\
  exists s' e',
    Tick.apply readyState readyEnv = (Ok s', e') /\
    map yPos (circles s') = [325] /\ time s' = 65.
Proof.
  assert (Ht : Z.abs (time readyState) < 2 ^ 53) by (vm_compute; reflexivity).
  assert (Hy : Forall (fun c => Z.abs (yPos c) < 2 ^ 53) (circles readyState)).
  { apply Forall_forall. intros c Hc.
    assert (Hcs : circles readyState = [readyCircle]) by (vm_compute; reflexivity).
    rewrite Hcs in Hc. destruct Hc as [<-|[]]. vm_compute. reflexivity. }
  split; [exact Ht | split; [exact Hy|]].
  destruct (tick_keeps_circles_in_order readyState readyEnv Ht Hy)
    as (s' & e' & Hrun & _ & _ & Hpos & _ & Htime & _).
  exists s', e'. split; [exact Hrun|]. split.
  - rewrite Hpos. vm_compute. reflexivity.
  - rewrite Htime. vm_compute. reflexivity.
Defined.

(** ** Where the generator is the exact congruence *)

(** X23.  [RNG.hash] is the linear congruence [(a * seed + c) mod m] as long
    as [a * seed + c] is below 2^53, that is for seeds from 0 to 8162278; the
    seed 42 of [main] is one.  A hash is usually larger than that, so from the
    second call on the product is rounded to a double before the remainder is
    taken and the sequence leaves the congruence: for the seed 42 at the
    second hash. *)
Theorem hash_exact_for_small_seeds (seed : Z) :
  0 <= seed <= 8162278 ->
  RNG.hash (Finite seed) = Finite ((RNG.a * seed + RNG.c) mod RNG.m) /\
  0 <= (RNG.a * seed + RNG.c) mod RNG.m < RNG.m.
Proof.
  intros [H0 H1].
  assert (Hprod : 0 <= RNG.a * seed < 2 ^ 53).
  { unfold RNG.a. split; [lia|]. change (2 ^ 53) with 9007199254740992. lia. }
  assert (Hsum : 0 <= RNG.a * seed + RNG.c < 2 ^ 53).
  { unfold RNG.a, RNG.c. split; [lia|].
    change (2 ^ 53) with 9007199254740992. lia. }
  assert (Hfin : RNG.a * seed < 2 ^ 1024 - 2 ^ 970).
  { assert (2 ^ 53 < 2 ^ 1024 - 2 ^ 970) by (vm_compute; reflexivity). lia. }
  rewrite (hash_finite seed H0 Hfin).
  rewrite (round53_small _ Hprod), (round53_small _ Hsum).
  rewrite Z.rem_mod_nonneg by (unfold RNG.m; lia).
  split; [reflexivity|]. apply Z.mod_pos_bound. unfold RNG.m. lia.
Qed.

Lemma hash_exact_for_small_seeds_witness :
  0 <= 42 <= 8162278 /\
  RNG.hash (Finite 42) = Finite ((RNG.a * 42 + RNG.c) mod RNG.m) /\
  RNG.hash (Finite 42) = Finite 1250496027 /\
  RNG.hash (Finite 1250496027)
  <> Finite ((RNG.a * 1250496027 + RNG.c) mod RNG.m).
Proof.
  assert (H : 0 <= 42 <= 8162278) by lia.
  split; [exact H|].
  split; [exact (proj1 (hash_exact_for_small_seeds 42 H))|].
  split; [vm_compute; reflexivity | vm_compute; discriminate].
Defined.
